(** * MMIO trace analysis scripts: a shallow embedding and its properties

    The development follows the two Python analysers of the repository:

    - [scripty.py]: [parse_log] and [analyze_log] (value-change timeline,
      per-offset change lists, 0x0/0x4 pairing, final state);
    - [scripty2.py]: [parse_log] and [analyze_registers] (read-before-write
      and device-controlled detection), [summarize_device_controlled]
      and the [sorted(..., key=...)] calls of [write_report];
    - [mmio_filter.py] and [mmio_to_cfg.py]: the header, the rule and the
      rows that the four formatting functions write, from the groups of
      their regular expressions on.

    Python integers are unbounded, hence [Z]; [None] is [option]'s [None];
    dictionaries are [gmap]s, sets are [gset]s, lists are [list]s that grow
    by [append] at the end.  Text is modelled over code points below 256. *)

From Stdlib Require Import ZArith String Ascii List Lia.
From stdpp Require Import gmap strings list fin_maps sorting.

#[local] Set Warnings "-clear-no-such-hyp".

Local Open Scope string_scope.
Local Open Scope list_scope.
Local Open Scope Z_scope.

(** ** Entries produced by [parse_log]

    [{'op': ..., 'offset': ..., 'value': ..., 'length': ...}] *)
Record Entry := mkEntry {
  op : string;
  offset : Z;
  value : Z;
  length_ : Z   (* 'length'; the name [length] is kept for lists *)
}.

(** [op == 'Read'], [op == 'Write']: exact string comparison. *)
Definition is_Read (o : string) : bool := String.eqb o "Read".
Definition is_Write (o : string) : bool := String.eqb o "Write".

(** [x != value] where [x] may be [None]: [None] differs from every int. *)
Definition differs (x : option Z) (v : Z) : bool :=
  match x with
  | Some y => negb (Z.eqb y v)
  | None => true
  end.

(** ** [scripty.py]: [analyze_log] *)
Module Scripty.

(** [timeline_entry] *)
Record TimelineEntry := mkTimeline {
  tl_index : nat;
  tl_op : string;
  tl_offset : Z;
  tl_value : Z;
  tl_old_value : option Z;
  tl_changed : bool
}.

(** [{'index': i, 'old': old_value, 'new': value}] *)
Record Change := mkChange {
  ch_index : nat;
  ch_old : option Z;
  ch_new : Z
}.

(** [{'index', 'reg_select', 'data_value', 'data_changed'}] *)
Record Pair := mkPair {
  p_index : nat;
  reg_select : Z;
  data_value : Z;
  data_changed : bool
}.

(** [{'index': i, 'value': value}] *)
Record IndexWrite := mkIndexWrite {
  iw_index : nat;
  iw_value : Z
}.

(** The local variables of [analyze_log]. *)
Record State := mkState {
  current_state : gmap Z (option Z);
  all_changes : gmap Z (list Change);
  pairs_0x0_0x4 : list Pair;
  last_0x0_write : option IndexWrite;
  timeline : list TimelineEntry
}.

Definition init : State :=
  {| current_state := ∅; all_changes := ∅; pairs_0x0_0x4 := [];
     last_0x0_write := None; timeline := [] |}.

(** One iteration of [for i, entry in enumerate(entries)]. *)
Definition step (i : nat) (entry : Entry) (st : State) : State :=
  let offset := offset entry in
  let value := value entry in
  let op := op entry in
  (* if offset not in current_state: ... *)
  let cs1 := match current_state st !! offset with
             | None => <[offset := None]> (current_state st)
             | Some _ => current_state st
             end in
  let ac1 := match current_state st !! offset with
             | None => <[offset := []]> (all_changes st)
             | Some _ => all_changes st
             end in
  (* old_value = current_state[offset]; the key is present by now *)
  let old_value := default None (cs1 !! offset) in
  let value_changed := if is_Write op then differs old_value value else false in
  let timeline' := timeline st ++ [mkTimeline i op offset value old_value value_changed] in
  if is_Write op then
    let ac2 := if value_changed
               then alter (λ l, l ++ [mkChange i old_value value]) offset ac1
               else ac1 in
    let cs2 := <[offset := Some value]> cs1 in
    if decide (offset = 0) then
      {| current_state := cs2; all_changes := ac2;
         pairs_0x0_0x4 := pairs_0x0_0x4 st;
         last_0x0_write := Some (mkIndexWrite i value);
         timeline := timeline' |}
    else
      match decide (offset = 4), last_0x0_write st with
      | left _, Some w =>
          {| current_state := cs2; all_changes := ac2;
             pairs_0x0_0x4 := pairs_0x0_0x4 st ++
                                [mkPair i (iw_value w) value value_changed];
             last_0x0_write := last_0x0_write st;
             timeline := timeline' |}
      | _, _ =>
          {| current_state := cs2; all_changes := ac2;
             pairs_0x0_0x4 := pairs_0x0_0x4 st;
             last_0x0_write := last_0x0_write st;
             timeline := timeline' |}
      end
  else
    {| current_state := cs1; all_changes := ac1;
       pairs_0x0_0x4 := pairs_0x0_0x4 st;
       last_0x0_write := last_0x0_write st;
       timeline := timeline' |}.

(** The loop, with the counter of [enumerate]. *)
Fixpoint loop (i : nat) (entries : list Entry) (st : State) : State :=
  match entries with
  | [] => st
  | entry :: rest => loop (S i) rest (step i entry st)
  end.

(** [analyze_log] returns [timeline, all_changes, pairs_0x0_0x4,
    current_state]; the model returns the record that holds all four. *)
Definition analyze_log (entries : list Entry) : State := loop 0 entries init.

End Scripty.

(** ** [scripty2.py]: [analyze_registers] *)
Module Scripty2.

(** [{'last_read': ..., 'write_since_read': ...}] *)
Record RegState := mkRegState {
  last_read : option Z;
  write_since_read : bool
}.

(** [{'index' | 'offset': key, 'value': value, 'line': i}] *)
Record RbwRecord := mkRbw {
  rbw_key : Z;
  rbw_value : Z;
  rbw_line : nat
}.

(** [{'index' | 'offset': key, 'old_value': ..., 'new_value': ..., 'line': i}] *)
Record DcRecord := mkDc {
  dc_key : Z;
  old_value : option Z;
  new_value : Z;
  dc_line : nat
}.

(** The function keeps every tracking variable twice, once for the indexed
    registers and once for the direct ones: [indexed_written] /
    [direct_written], [reported_indexed_rbw] / [reported_direct_rbw],
    [read_before_write_indexed] / [read_before_write_direct],
    [indexed_state] / [direct_state], [device_controlled_indexed] /
    [device_controlled_direct].  A [Table] is one such group. *)
Record Table := mkTable {
  written : gset Z;
  reported_rbw : gset Z;
  read_before_write : list RbwRecord;
  reg_state : gmap Z RegState;
  device_controlled : list DcRecord
}.

Definition empty_table : Table :=
  {| written := ∅; reported_rbw := ∅; read_before_write := [];
     reg_state := ∅; device_controlled := [] |}.

(** The body of [if op == 'Read':] (lines 77-105 for the indexed group
    with [key = current_index], lines 120-148 for the direct group with
    [key = offset]; the two texts differ in the variable names only). *)
Definition on_read (key value : Z) (i : nat) (t : Table) : Table :=
  (* Check for READ BEFORE WRITE *)
  let emit := bool_decide (key ∉ written t) && bool_decide (key ∉ reported_rbw t) in
  let rbw := if emit then read_before_write t ++ [mkRbw key value i]
             else read_before_write t in
  let reported := if emit then {[key]} ∪ reported_rbw t else reported_rbw t in
  (* Check for DEVICE-CONTROLLED change *)
  let dc := match reg_state t !! key with
            | Some state =>
                if negb (write_since_read state) && differs (last_read state) value
                then device_controlled t ++ [mkDc key (last_read state) value i]
                else device_controlled t
            | None => device_controlled t
            end in
  (* Update state *)
  {| written := written t; reported_rbw := reported;
     read_before_write := rbw;
     reg_state := <[key := mkRegState (Some value) false]> (reg_state t);
     device_controlled := dc |}.

(** The body of [elif op == 'Write':] (lines 107-116 and 150-159). *)
Definition on_write (key : Z) (t : Table) : Table :=
  {| written := {[key]} ∪ written t; reported_rbw := reported_rbw t;
     read_before_write := read_before_write t;
     reg_state := match reg_state t !! key with
                  | Some state =>
                      <[key := mkRegState (last_read state) true]> (reg_state t)
                  | None => <[key := mkRegState None true]> (reg_state t)
                  end;
     device_controlled := device_controlled t |}.

(** The local variables of [analyze_registers]. *)
Record State := mkState {
  current_index : option Z;
  indexed : Table;
  direct : Table
}.

Definition init : State :=
  {| current_index := None; indexed := empty_table; direct := empty_table |}.

(** One iteration of [for i, entry in enumerate(entries)]. *)
Definition step (i : nat) (entry : Entry) (st : State) : State :=
  let offset := offset entry in
  let value := value entry in
  let op := op entry in
  if decide (offset = 0) then
    if is_Write op
    then {| current_index := Some value; indexed := indexed st; direct := direct st |}
    else st
  else if decide (offset = 4) then
    match current_index st with
    | Some ci =>
        if is_Read op then
          {| current_index := current_index st;
             indexed := on_read ci value i (indexed st); direct := direct st |}
        else if is_Write op then
          {| current_index := current_index st;
             indexed := on_write ci (indexed st); direct := direct st |}
        else st
    | None => st
    end
  else
    if is_Read op then
      {| current_index := current_index st;
         indexed := indexed st; direct := on_read offset value i (direct st) |}
    else if is_Write op then
      {| current_index := current_index st;
         indexed := indexed st; direct := on_write offset (direct st) |}
    else st.

Fixpoint loop (i : nat) (entries : list Entry) (st : State) : State :=
  match entries with
  | [] => st
  | entry :: rest => loop (S i) rest (step i entry st)
  end.

(** The state when the loop ends; [analyze_registers] returns four of its
    lists. *)
Definition run (entries : list Entry) : State := loop 0 entries init.

Definition analyze_registers (entries : list Entry)
  : list RbwRecord * list RbwRecord * list DcRecord * list DcRecord :=
  let st := run entries in
  (read_before_write (indexed st), read_before_write (direct st),
   device_controlled (indexed st), device_controlled (direct st)).

(** [sorted(rbw, key=lambda x: x['index'])] in [write_report] and [main]:
    Python's [sorted] is stable, and a stable sort has one possible result,
    the one of inserting each element after its equals. *)
Fixpoint insert_by_key (x : RbwRecord) (l : list RbwRecord) : list RbwRecord :=
  match l with
  | [] => [x]
  | y :: l' => if (rbw_key x <? rbw_key y)%Z then x :: l
               else y :: insert_by_key x l'
  end.

Definition sorted_by_key (l : list RbwRecord) : list RbwRecord :=
  fold_left (λ acc x, insert_by_key x acc) l [].

End Scripty2.

(** ** [parse_log] (the same text in [scripty.py] and [scripty2.py]) *)
Module ParseLog.

Definition code (c : ascii) : Z := Z.of_N (N_of_ascii c).

(** [str.isspace] on code points below 256. *)
Definition is_space (c : ascii) : bool :=
  let n := code c in
  ((9 <=? n) && (n <=? 13)) || ((28 <=? n) && (n <=? 32))
  || (n =? 133) || (n =? 160).

(** Removal of the leading, and of the trailing, characters that satisfy
    [p]. *)
Fixpoint lstrip_by (p : ascii → bool) (s : string) : string :=
  match s with
  | String c s' => if p c then lstrip_by p s' else s
  | EmptyString => EmptyString
  end.

Fixpoint rstrip_by (p : ascii → bool) (s : string) : string :=
  match s with
  | EmptyString => EmptyString
  | String c s' =>
      match rstrip_by p s' with
      | EmptyString => if p c then EmptyString else String c EmptyString
      | r => String c r
      end
  end.

(** [s.strip()] *)
Definition strip (s : string) : string := lstrip_by is_space (rstrip_by is_space s).

(** [s.split(sep)] for a one-character separator: never the empty list. *)
Fixpoint split_on (sep : ascii) (s : string) : list string :=
  match s with
  | EmptyString => [EmptyString]
  | String c s' =>
      if Ascii.eqb c sep then EmptyString :: split_on sep s'
      else match split_on sep s' with
           | h :: t => String c h :: t
           | [] => [String c EmptyString]
           end
  end.

(** [s.split()]: the maximal runs of non-whitespace characters. *)
Fixpoint split (s : string) : list string :=
  match s with
  | EmptyString => []
  | String c s' =>
      if is_space c then split s'
      else match s' with
           | EmptyString => [String c EmptyString]
           | String c' _ =>
               if is_space c' then String c EmptyString :: split s'
               else match split s' with
                    | h :: t => String c h :: t
                    | [] => [String c EmptyString]
                    end
           end
  end.

(** The value of a base-16 digit. *)
Definition hex_digit (c : ascii) : option Z :=
  let n := code c in
  if (48 <=? n) && (n <=? 57) then Some (n - 48)
  else if (97 <=? n) && (n <=? 102) then Some (n - 87)
  else if (65 <=? n) && (n <=? 70) then Some (n - 55)
  else None.

(** The digits of [int(s, 16)]: single underscores may separate digits, none
    may end the literal.  [prev_us] says that the last character read was an
    underscore. *)
Fixpoint digits16 (s : string) (prev_us : bool) (acc : Z) : option Z :=
  match s with
  | EmptyString => if prev_us then None else Some acc
  | String c s' =>
      if Ascii.eqb c "_"%char then
        if prev_us then None else digits16 s' true acc
      else match hex_digit c with
           | Some d => digits16 s' false (16 * acc + d)
           | None => None
           end
  end.

(** After the sign and the prefix: no leading underscore, at least one
    digit. *)
Definition body16 (s : string) : option Z :=
  match s with
  | EmptyString => None
  | String c _ => if Ascii.eqb c "_"%char then None else digits16 s false 0
  end.

(** The optional [0x] / [0X] prefix, which one underscore may follow. *)
Definition unprefixed16 (s : string) : string :=
  match s with
  | String "0"%char (String x s') =>
      if Ascii.eqb x "x"%char || Ascii.eqb x "X"%char then
        match s' with
        | String "_"%char s'' => s''
        | _ => s'
        end
      else s
  | _ => s
  end.

(** The whitespace that [int] drops around a literal: of the characters of
    [is_space], those from 0x1c to 0x1f are not among them. *)
Definition is_int_space (c : ascii) : bool :=
  let n := code c in
  ((9 <=? n) && (n <=? 13)) || (n =? 32) || (n =? 133) || (n =? 160).

(** [int(s, 16)]; [None] stands for [ValueError]. *)
Definition int16 (s : string) : option Z :=
  match lstrip_by is_int_space (rstrip_by is_int_space s) with
  | String "+"%char s' => body16 (unprefixed16 s')
  | String "-"%char s' => Z.opp <$> body16 (unprefixed16 s')
  | s' => body16 (unprefixed16 s')
  end.

(** The body of [for line in lines]; the [try] block turns a [ValueError]
    of any of the three conversions into [continue]. *)
Definition parse_line (entries : list Entry) (line : string) : list Entry :=
  if String.prefix "Operation" line || String.prefix "----" line
     || String.eqb (strip line) ""
  then entries
  else
    match split line with
    | operation :: p1 :: p2 :: p3 :: _ =>
        match int16 p1 with
        | None => entries
        | Some offset =>
            match int16 p2 with
            | None => entries
            | Some value =>
                match int16 p3 with
                | None => entries
                | Some length => entries ++ [mkEntry operation offset value length]
                end
            end
        end
    | _ => entries
    end.

Definition newline : ascii := "010"%char.

Definition parse_log (log_text : string) : list Entry :=
  let lines := split_on newline (strip log_text) in
  fold_left parse_line lines [].

End ParseLog.

(** ** The vocabulary of the specification: positions of a trace

    Everything below is stated on the event sequence itself, by position,
    with no reference to the state the analysers keep. *)
Module Trace.

(** [e] is a Write to offset [off]. *)
Definition writes_to (off : Z) (e : Entry) : bool :=
  is_Write (op e) && bool_decide (offset e = off).

(** The value of the last Write to [off] in [l], absent if there is none. *)
Definition written_value (l : list Entry) (off : Z) : option Z :=
  last (value <$> filter (λ e, writes_to off e) l).

(** The current value of [off] just before position [i]: the value of the
    last Write to [off] among the first [i] events. *)
Definition last_write_before (entries : list Entry) (i : nat) (off : Z) : option Z :=
  written_value (take i entries) off.

(** The elements [f i x] that are present, for [x] at position [i] of [l],
    in the order of [l]. *)
Definition collect {A B} (f : nat → A → option B) (l : list A) : list B :=
  omap id (imap f l).

(** The change record of position [i] for offset [off], if that event is a
    Write to [off] whose value differs from the current value. *)
Definition change_at (entries : list Entry) (off : Z) (i : nat) (e : Entry)
  : option Scripty.Change :=
  let prev := last_write_before entries i off in
  if writes_to off e && differs prev (value e)
  then Some (Scripty.mkChange i prev (value e))
  else None.

(** The pair record of position [i]: a Write to the data offset 0x4 after
    some Write to the index offset 0x0; its flag compares the written value
    with the last value written to offset 0x4. *)
Definition pair_at (entries : list Entry) (i : nat) (e : Entry)
  : option Scripty.Pair :=
  if writes_to 4 e then
    match last_write_before entries i 0 with
    | Some r => Some (Scripty.mkPair i r (value e)
                        (differs (last_write_before entries i 4) (value e)))
    | None => None
    end
  else None.

(** The timeline entry of position [i]: the event, the current value of
    its offset just before it, and whether it is a Write that changes it. *)
Definition timeline_at (entries : list Entry) (i : nat) (e : Entry)
  : Scripty.TimelineEntry :=
  let prev := last_write_before entries i (offset e) in
  Scripty.mkTimeline i (op e) (offset e) (value e) prev
    (is_Write (op e) && differs prev (value e)).

(** The two addressing schemes; a register is a scheme and a key. *)
Inductive Scheme := IndexedRegs | DirectRegs.

(** The register that the event at position [i] accesses: none for the
    index offset 0x0; for the data offset 0x4 the indexed register selected
    by the last value written to 0x0 (none before the first such Write);
    the direct register at the offset itself otherwise. *)
Definition key_at (entries : list Entry) (i : nat) : option (Scheme * Z) :=
  match entries !! i with
  | None => None
  | Some e =>
      if decide (offset e = 0) then None
      else if decide (offset e = 4)
           then pair IndexedRegs <$> last_write_before entries i 0
           else Some (DirectRegs, offset e)
  end.

(** Position [i] holds a Read of register [k] of scheme [s] that returned
    [v]. *)
Definition read_at (entries : list Entry) (s : Scheme) (k : Z) (i : nat) (v : Z)
  : Prop :=
  ∃ e, entries !! i = Some e ∧ op e = "Read" ∧ value e = v
       ∧ key_at entries i = Some (s, k).

(** Position [i] holds a Write to register [k] of scheme [s]. *)
Definition write_at (entries : list Entry) (s : Scheme) (k : Z) (i : nat) : Prop :=
  ∃ e, entries !! i = Some e ∧ op e = "Write" ∧ key_at entries i = Some (s, k).

(** The value that the data-offset Writes made under index [r] left in the
    indexed register [r] before position [i]: the reading of "the current
    value at this reg_select key" that keys the comparison per register. *)
Definition keyed_write (entries : list Entry) (r : Z) (i : nat) (e : Entry)
  : option Z :=
  if writes_to 4 e && bool_decide (last_write_before entries i 0 = Some r)
  then Some (value e) else None.

Definition keyed_value_before (entries : list Entry) (i : nat) (r : Z) : option Z :=
  last (collect (keyed_write entries r) (take i entries)).

(** The lists that [analyze_registers] returns, by scheme, as [main]
    unpacks them: [rbw_indexed, rbw_direct, dc_indexed, dc_direct]. *)
Definition rbw_records (s : Scheme) (entries : list Entry)
  : list Scripty2.RbwRecord :=
  let '(rbw_indexed, rbw_direct, _, _) := Scripty2.analyze_registers entries in
  match s with IndexedRegs => rbw_indexed | DirectRegs => rbw_direct end.

Definition dc_records (s : Scheme) (entries : list Entry)
  : list Scripty2.DcRecord :=
  let '(_, _, dc_indexed, dc_direct) := Scripty2.analyze_registers entries in
  match s with IndexedRegs => dc_indexed | DirectRegs => dc_direct end.

(** The state table of a scheme when the loop ends. *)
Definition state_table (s : Scheme) (entries : list Entry)
  : gmap Z Scripty2.RegState :=
  match s with
  | IndexedRegs => Scripty2.reg_state (Scripty2.indexed (Scripty2.run entries))
  | DirectRegs => Scripty2.reg_state (Scripty2.direct (Scripty2.run entries))
  end.

(** The lines that the normalizer reads: the text without its leading and
    trailing whitespace, cut at every newline. *)
Definition lines (log_text : string) : list string :=
  ParseLog.split_on ParseLog.newline (ParseLog.strip log_text).



End Trace.

(** ** The groupings of the report writers *)

(** [scripty.py], [write_report], section 2: the data values written for
    each register select value, each value once, in the order of its first
    pair. *)
Module Report.
Import Scripty.

(** One iteration of [for pair in pairs_0x0_0x4]. *)
Definition group_pair (reg_data_map : gmap Z (list Z)) (pair : Pair)
  : gmap Z (list Z) :=
  let reg := reg_select pair in
  let data := data_value pair in
  (* if reg not in reg_data_map: reg_data_map[reg] = [] *)
  let m1 := match reg_data_map !! reg with
            | None => <[reg := []]> reg_data_map
            | Some _ => reg_data_map
            end in
  (* if data not in reg_data_map[reg]: reg_data_map[reg].append(data) *)
  if decide (data ∈ default [] (m1 !! reg)) then m1
  else alter (λ l, l ++ [data]) reg m1.

Definition reg_data_map (pairs : list Pair) : gmap Z (list Z) :=
  fold_left group_pair pairs ∅.

(** [print_summary]: [len([k for k, v in all_changes.items() if len(v) > 0])],
    the number printed as "Offsets with value changes". *)
Definition offsets_with_changes (all_changes : gmap Z (list Change)) : nat :=
  size (filter (λ kv, kv.2 ≠ []) all_changes).

(** [write_report]: [len(current_state)], the number written as "Unique
    offsets accessed". *)
Definition unique_offsets (current_state : gmap Z (option Z)) : nat :=
  size current_state.

End Report.

(** [scripty2.py], [summarize_device_controlled]. *)
Module Report2.
Import Scripty2.

(** [{'changes': [...], 'unique_values': set()}]; the set receives the
    [old_value] of a record as it stands, so its elements are optional. *)
Record Summary := mkSummary {
  changes : list DcRecord;
  unique_values : gset (option Z)
}.

(** One iteration of [for change in changes]; the key of a record is its
    ['index'] or, for want of one, its ['offset']. *)
Definition summarize_step (summary : gmap Z Summary) (change : DcRecord)
  : gmap Z Summary :=
  let key := dc_key change in
  let s1 := match summary !! key with
            | None => <[key := mkSummary [] ∅]> summary
            | Some _ => summary
            end in
  alter (λ s, mkSummary (changes s ++ [change])
                ({[Some (new_value change)]} ∪
                 ({[old_value change]} ∪ unique_values s)))
    key s1.

Definition summarize_device_controlled (changes : list DcRecord)
  : gmap Z Summary :=
  fold_left summarize_step changes ∅.

End Report2.

(** ** [mmio_filter.py] and [mmio_to_cfg.py]: the rows written

    The four functions print, or write to a file, a header, a rule and one
    row for every input line that one of two regular expressions matches.
    [re.search] is a library function: the model starts at its result, the
    groups of the match. *)
Module Filter.
Import ParseLog.

(** [n] spaces. *)
Fixpoint pad (n : nat) : string :=
  match n with
  | O => EmptyString
  | S n' => String " "%char (pad n')
  end.

(** [f"{s:<width}"]: [s], filled with spaces on the right up to [width]
    characters, and as it is when it is longer. *)
Definition ljust (width : nat) (s : string) : string :=
  s +:+ pad (width - String.length s).

(** [f"{op:<8} {offset:<10} {value:<10} {length:<8}"] *)
Definition format_row (op offset value length : string) : string :=
  ljust 8 op +:+ " " +:+ ljust 10 offset +:+ " " +:+ ljust 10 value +:+ " "
  +:+ ljust 8 length.

Definition header_line : string := format_row "Operation" "Offset" "Value" "Length".

(** ["-" * 36] *)
Definition rule_line : string := "------------------------------------".

Definition nl : string := String newline EmptyString.

(** [mmio_filter.py]: the row of a line, from the groups of
    [read_pattern] (offset, value) and of [write_pattern] (offset, value,
    decimal length); the Read is tried first, and a line that matches
    neither gives no row. *)
Definition mmio_row (read_match : option (string * string))
    (write_match : option (string * string * string)) : option string :=
  match read_match with
  | Some (offset, value) => Some (format_row "Read" offset value "0x4")
  | None =>
      match write_match with
      | Some (offset, value, g3) =>
          Some (format_row "Write" offset value ("0x" +:+ g3))
      | None => None
      end
  end.

(** [mmio_to_cfg.py]: the groups of [read_pattern] are offset, length,
    value, in this order; those of [write_pattern] offset, value, length. *)
Definition pci_row (read_match : option (string * string * string))
    (write_match : option (string * string * string)) : option string :=
  match read_match with
  | Some (offset, length, value) => Some (format_row "Read" offset value length)
  | None =>
      match write_match with
      | Some (offset, value, length) => Some (format_row "Write" offset value length)
      | None => None
      end
  end.

(** [outfile.write(row + "\n")] for a line that has a row. *)
Definition write_row (out : string) (row : option string) : string :=
  match row with
  | Some r => out +:+ r +:+ nl
  | None => out
  end.

Section ToFile.
(** [re.search(read_pattern, s)] and [re.search(write_pattern, s)]: the
    groups of the match, or [None]. *)
Context {R W : Type}.
Variable read_search : string → option R.
Variable write_search : string → option W.
Variable row : option R → option W → option string.

(** What [format_mmio_access_to_file] and [format_pci_config_to_file]
    write to the output file for the lines [infile]: the header, the rule,
    then the rows, each followed by a newline. *)
Definition format_to_file (infile : list string) : string :=
  fold_left
    (λ out line, write_row out (row (read_search (strip line))
                                    (write_search (strip line))))
    infile
    (header_line +:+ nl +:+ rule_line +:+ nl).
End ToFile.

Definition format_mmio_access_to_file
    (read_search : string → option (string * string))
    (write_search : string → option (string * string * string))
    (infile : list string) : string :=
  format_to_file read_search write_search mmio_row infile.

Definition format_pci_config_to_file
    (read_search write_search : string → option (string * string * string))
    (infile : list string) : string :=
  format_to_file read_search write_search pci_row infile.

(** The shape of the groups: [0x[0-9a-f]+] and [\d+]. *)
Fixpoint all_chars (p : ascii → bool) (s : string) : bool :=
  match s with
  | EmptyString => true
  | String c s' => p c && all_chars p s'
  end.

Definition is_lower_hex (c : ascii) : bool :=
  let n := code c in
  ((48 <=? n) && (n <=? 57)) || ((97 <=? n) && (n <=? 102)).

Definition is_decimal (c : ascii) : bool :=
  let n := code c in (48 <=? n) && (n <=? 57).

(** A non-empty run of characters that satisfy [p]. *)
Definition run_of (p : ascii → bool) (s : string) : bool :=
  negb (String.eqb s "") && all_chars p s.

(** [0x[0-9a-f]+] *)
Definition hex_literal (s : string) : bool :=
  match s with
  | String "0"%char (String "x"%char ds) => run_of is_lower_hex ds
  | _ => false
  end.

(** The number that base-16 digits write. *)
Fixpoint digits_value (acc : Z) (ds : string) : Z :=
  match ds with
  | EmptyString => acc
  | String c ds' => digits_value (16 * acc + default 0 (hex_digit c)) ds'
  end.

(** The number that a literal [0x...] writes. *)
Definition literal_value (s : string) : Z :=
  match s with
  | String _ (String _ ds) => digits_value 0 ds
  | _ => 0
  end.

(** The entry that a row stands for. *)
Definition mmio_entry (read_match : option (string * string))
    (write_match : option (string * string * string)) : option Entry :=
  match read_match with
  | Some (offset, value) =>
      Some (mkEntry "Read" (literal_value offset) (literal_value value) 4)
  | None =>
      match write_match with
      | Some (offset, value, g3) =>
          Some (mkEntry "Write" (literal_value offset) (literal_value value)
                  (digits_value 0 g3))
      | None => None
      end
  end.

Definition pci_entry (read_match : option (string * string * string))
    (write_match : option (string * string * string)) : option Entry :=
  match read_match with
  | Some (offset, length, value) =>
      Some (mkEntry "Read" (literal_value offset) (literal_value value)
              (literal_value length))
  | None =>
      match write_match with
      | Some (offset, value, length) =>
          Some (mkEntry "Write" (literal_value offset) (literal_value value)
                  (literal_value length))
      | None => None
      end
  end.

End Filter.

(** ** What the proofs keep track of

    The state of [analyze_log] after a prefix of the events. *)
Module AnalyzeLogInv.
Import Trace Scripty.

(** The value [old_value] that an iteration reads. *)
Definition current (st : State) (off : Z) : option Z :=
  default None (current_state st !! off).

(** [all_changes] after an iteration: the initialisation of a new offset,
    then the [append] when the Write changes the value. *)
Definition init_changes (e : Entry) (st : State) : gmap Z (list Change) :=
  match current_state st !! offset e with
  | Some _ => all_changes st
  | None => <[offset e := []]> (all_changes st)
  end.

(** What the analyser holds after the events [l]. *)
Record Inv (l : list Entry) (st : State) : Prop := mkInv {
  inv_current : ∀ off, current st off = written_value l off;
  inv_dom : ∀ off, is_Some (all_changes st !! off) ↔ is_Some (current_state st !! off);
  inv_seen : ∀ off, is_Some (current_state st !! off) ↔ ∃ e, e ∈ l ∧ offset e = off;
  inv_index : iw_value <$> last_0x0_write st = written_value l 0;
  inv_changes : ∀ off, default [] (all_changes st !! off) = collect (change_at l off) l;
  inv_pairs : pairs_0x0_0x4 st = collect (pair_at l) l;
  inv_timeline : timeline st = imap (timeline_at l) l
}.

End AnalyzeLogInv.

(** Each table of [analyze_registers] (indexed, direct) sees a subsequence
    of the events: the Reads and Writes of its own registers.  The facts on
    a table are proved once, over the list that holds, for every position
    of the trace, the access made to the table there (or none). *)
Module TableReplay.
Import Trace Scripty2.

Inductive Access := ARead (v : Z) | AWrite.

Definition Action : Type := option (Z * Access).

Definition apply_action (i : nat) (a : Action) (t : Table) : Table :=
  match a with
  | Some (k, ARead v) => on_read k v i t
  | Some (k, AWrite) => on_write k t
  | None => t
  end.

Fixpoint play (i : nat) (acts : list Action) (t : Table) : Table :=
  match acts with
  | [] => t
  | a :: rest => play (S i) rest (apply_action i a t)
  end.

Definition replay (acts : list Action) : Table := play 0 acts empty_table.

Definition reads (acts : list Action) (k : Z) (i : nat) (v : Z) : Prop :=
  acts !! i = Some (Some (k, ARead v)).

Definition writes (acts : list Action) (k : Z) (i : nat) : Prop :=
  acts !! i = Some (Some (k, AWrite)).

Definition touches (acts : list Action) (k : Z) (i : nat) : Prop :=
  ∃ x, acts !! i = Some (Some (k, x)).

(** What a table holds after the accesses [acts]. *)
Record TInv (acts : list Action) (t : Table) : Prop := mkTInv {
  inv_written : ∀ k, k ∈ written t ↔ ∃ w, writes acts k w;
  inv_reported : ∀ k, k ∈ reported_rbw t ↔
                      ∃ r, r ∈ read_before_write t ∧ rbw_key r = k;
  inv_touched : ∀ k m, touches acts k m → k ∈ written t ∨ k ∈ reported_rbw t;
  inv_rbw : ∀ r, r ∈ read_before_write t ↔
                 reads acts (rbw_key r) (rbw_line r) (rbw_value r) ∧
                 ∀ m, (m < rbw_line r)%nat → ¬ touches acts (rbw_key r) m;
  inv_fresh : ∀ k, reg_state t !! k = None → ∀ m, ¬ touches acts k m;
  inv_after_read : ∀ k s, reg_state t !! k = Some s → write_since_read s = false →
                   ∃ i v, reads acts k i v ∧ last_read s = Some v ∧
                          ∀ m, (i < m)%nat → ¬ touches acts k m;
  inv_after_write : ∀ k s, reg_state t !! k = Some s → write_since_read s = true →
                    ∃ w, writes acts k w ∧ ∀ m v, (w < m)%nat → ¬ reads acts k m v;
  inv_dc : ∀ d, d ∈ device_controlled t ↔
                ∃ i v1, old_value d = Some v1 ∧ (i < dc_line d)%nat ∧
                        reads acts (dc_key d) i v1 ∧
                        reads acts (dc_key d) (dc_line d) (new_value d) ∧
                        v1 ≠ new_value d ∧
                        ∀ m, (i < m < dc_line d)%nat → ¬ touches acts (dc_key d) m
}.

Definition access_of (e : Entry) : option Access :=
  if is_Read (op e) then Some (ARead (value e))
  else if is_Write (op e) then Some AWrite
  else None.

(** The access that event [e] makes to the table of scheme [s] when the
    index register holds [ci]. *)
Definition action_of (s : Scheme) (ci : option Z) (e : Entry) : Action :=
  if decide (offset e = 0) then None
  else if decide (offset e = 4) then
    match s, ci with
    | IndexedRegs, Some k => pair k <$> access_of e
    | _, _ => None
    end
  else
    match s with
    | DirectRegs => pair (offset e) <$> access_of e
    | IndexedRegs => None
    end.

Definition actions (s : Scheme) (l : list Entry) : list Action :=
  imap (λ i e, action_of s (last_write_before l i 0) e) l.

Definition table (s : Scheme) (st : State) : Table :=
  match s with IndexedRegs => indexed st | DirectRegs => direct st end.

(** The key of an event, given the value of the index register. *)
Definition key_of (ci : option Z) (e : Entry) : option (Scheme * Z) :=
  if decide (offset e = 0) then None
  else if decide (offset e = 4) then pair IndexedRegs <$> ci
  else Some (DirectRegs, offset e).

End TableReplay.

(** The order that [sorted(..., key=...)] establishes. *)
Module ReportOrder.
Import Scripty2.

Definition key_le (x y : RbwRecord) : Prop := (rbw_key x ≤ rbw_key y)%Z.

End ReportOrder.

Module LineByLine.
Import ParseLog.

(** The entry that the loop body appends for a line, if any. *)
Definition line_entry (line : string) : option Entry :=
  match parse_line [] line with
  | e :: _ => Some e
  | [] => None
  end.

End LineByLine.

(** What the extra properties keep track of. *)
Module ChangeChain.
Import Trace Scripty AnalyzeLogInv.

(** The change list of an offset is a chain that ends at the current
    value. *)
Record Chain (st : State) (off : Z) : Prop := mkChain {
  chain_last : ch_new <$> last (default [] (all_changes st !! off)) = current st off;
  chain_first : ∀ c, default [] (all_changes st !! off) !! 0%nat = Some c →
                     ch_old c = None;
  chain_next : ∀ k c c', default [] (all_changes st !! off) !! k = Some c →
                         default [] (all_changes st !! off) !! S k = Some c' →
                         ch_old c' = Some (ch_new c)
}.

End ChangeChain.

Module FilterSpec.
Import ParseLog LineByLine Filter.

(** A word: a non-empty run of characters that are not whitespace. *)
Definition word (w : string) : bool := run_of (λ c, negb (is_space c)) w.

(** The entries of the lines of a text, with no [strip] of the text. *)
Definition entries_of_lines (t : string) : list Entry :=
  omap line_entry (split_on newline t).

(** A row and the entry that [parse_log] reads from it. *)
Definition row_of (r : string) (e : Entry) : Prop :=
  ∃ op o v l, r = format_row op o v l ∧ (op = "Read" ∨ op = "Write") ∧
              hex_literal o = true ∧ hex_literal v = true ∧ hex_literal l = true ∧
              e = mkEntry op (literal_value o) (literal_value v) (literal_value l).

(** The text of the rows, each followed by a newline. *)
Fixpoint rows_text (rows : list (option string)) : string :=
  match rows with
  | [] => EmptyString
  | Some r :: rest => r +:+ nl +:+ rows_text rest
  | None :: rest => rows_text rest
  end.

End FilterSpec.

(** ** Sample results of the two searches, for three input lines *)
Module Samples.

Definition mmio_read_search (s : string) : option (string * string) :=
  if String.eqb s "r" then Some ("0x8", "0x1f") else None.

Definition mmio_write_search (s : string) : option (string * string * string) :=
  if String.eqb s "w" then Some ("0xc", "0x2", "16") else None.

Definition pci_read_search (s : string) : option (string * string * string) :=
  if String.eqb s "r" then Some ("0x4", "0x2", "0x107") else None.

Definition pci_write_search (s : string) : option (string * string * string) :=
  if String.eqb s "w" then Some ("0x10", "0xfe000000", "0x4") else None.

Definition infile : list string := ["r" +:+ Filter.nl; "other" +:+ Filter.nl; " w "].

End Samples.

(** ** Two small traces *)

(** Four Writes: index 5, data 10, index 6, data 10 again. *)
Definition trace_same_data_two_indexes : list Entry :=
  [mkEntry "Write" 0 5 4; mkEntry "Write" 4 10 4;
   mkEntry "Write" 0 6 4; mkEntry "Write" 4 10 4].

(** Two Reads of direct registers, the higher offset first. *)
Definition trace_two_direct_reads : list Entry :=
  [mkEntry "Read" 12 1 4; mkEntry "Read" 8 2 4].

(** * Properties *)

(** ** Facts about the trace vocabulary *)
Module TraceFacts.
Import Trace.

Lemma written_value_snoc l e off :
  written_value (l ++ [e]) off =
  if writes_to off e then Some (value e) else written_value l off.
Proof.
  unfold written_value. rewrite filter_app, fmap_app, filter_cons, filter_nil.
  case_decide as Hw.
  - apply Is_true_true in Hw. rewrite Hw. simpl. apply last_snoc.
  - apply Is_true_false in Hw. rewrite Hw. simpl. by rewrite app_nil_r.
Qed.

Lemma last_write_before_app l l' i off :
  (i ≤ length l)%nat →
  last_write_before (l ++ l') i off = last_write_before l i off.
Proof. intros Hi. unfold last_write_before. by rewrite take_app_le. Qed.

Lemma last_write_before_length l l' off :
  last_write_before (l ++ l') (length l) off = written_value l off.
Proof. unfold last_write_before. by rewrite take_app_length. Qed.

Lemma last_write_before_all l off :
  last_write_before l (length l) off = written_value l off.
Proof. unfold last_write_before. by rewrite take_ge. Qed.

Section Collect.
Context {A B : Type}.
Implicit Types (f g : nat → A → option B) (l : list A).

Lemma collect_snoc f l x :
  collect f (l ++ [x]) =
  collect f l ++ match f (length l) x with Some y => [y] | None => [] end.
Proof.
  unfold collect. rewrite imap_app, omap_app. f_equal. simpl.
  rewrite Nat.add_0_r. by destruct (f (length l) x).
Qed.

Lemma collect_ext f g l :
  (∀ i x, l !! i = Some x → f i x = g i x) → collect f l = collect g l.
Proof. intros H. unfold collect. f_equal. by apply imap_ext. Qed.

Lemma elem_of_collect f l y :
  y ∈ collect f l ↔ ∃ i x, l !! i = Some x ∧ f i x = Some y.
Proof.
  unfold collect. rewrite list_elem_of_omap. split.
  - intros (o & Ho & Heq). simpl in Heq. subst o.
    apply elem_of_lookup_imap in Ho as (i & x & Hf & Hl). eauto.
  - intros (i & x & Hl & Hf). exists (Some y). split; [|done].
    rewrite <- Hf. by apply elem_of_lookup_imap_2.
Qed.

End Collect.

Lemma change_at_app l l' off i e :
  (i ≤ length l)%nat → change_at (l ++ l') off i e = change_at l off i e.
Proof. intros Hi. unfold change_at. by rewrite last_write_before_app. Qed.

Lemma pair_at_app l l' i e :
  (i ≤ length l)%nat → pair_at (l ++ l') i e = pair_at l i e.
Proof. intros Hi. unfold pair_at. by rewrite !last_write_before_app. Qed.

Lemma key_at_app l l' i :
  (i < length l)%nat → key_at (l ++ l') i = key_at l i.
Proof.
  intros Hi. unfold key_at. rewrite lookup_app_l by done.
  destruct (l !! i); [|done]. by rewrite last_write_before_app by lia.
Qed.

End TraceFacts.

(** ** [analyze_log]: the state after a prefix, in terms of the trace *)
Module ScriptyFacts.
Import Trace TraceFacts Scripty AnalyzeLogInv.

Lemma analyze_loop_app i l1 l2 st :
  loop i (l1 ++ l2) st = loop (i + length l1) l2 (loop i l1 st).
Proof.
  revert i st. induction l1 as [|e l1 IH]; intros i st; simpl.
  - by rewrite Nat.add_0_r.
  - rewrite IH. f_equal. lia.
Qed.

Lemma analyze_log_snoc l e :
  analyze_log (l ++ [e]) = step (length l) e (analyze_log l).
Proof. unfold analyze_log. by rewrite analyze_loop_app. Qed.

Lemma step_current i e st off :
  current (step i e st) off =
  if writes_to off e then Some (value e) else current st off.
Proof.
  unfold current, step, writes_to.
  destruct (is_Write (op e)); simpl.
  - case_bool_decide as Hoff.
    + subst off.
      destruct (decide (offset e = 0)); [|destruct (decide (offset e = 4));
        destruct (last_0x0_write st)]; simpl; by rewrite lookup_insert_eq.
    + assert (
        default None (<[offset e := Some (value e)]>
          (match current_state st !! offset e with
           | Some _ => current_state st
           | None => <[offset e := None]> (current_state st)
           end) !! off) = default None (current_state st !! off)) as Hne.
      { rewrite lookup_insert_ne by done.
        destruct (current_state st !! offset e); [done|].
        by rewrite lookup_insert_ne. }
      destruct (decide (offset e = 0)); [|destruct (decide (offset e = 4));
        destruct (last_0x0_write st)]; simpl; by apply Hne.
  - destruct (current_state st !! offset e) eqn:Hc; [done|].
    destruct (decide (offset e = off)) as [Heq|].
    + rewrite <- Heq. by rewrite lookup_insert_eq, Hc.
    + by rewrite lookup_insert_ne.
Qed.

Lemma step_timeline i e st :
  timeline (step i e st) =
  timeline st ++ [mkTimeline i (op e) (offset e) (value e)
                    (current st (offset e))
                    (is_Write (op e) && differs (current st (offset e)) (value e))].
Proof.
  assert (default None (match current_state st !! offset e with
                        | Some _ => current_state st
                        | None => <[offset e := None]> (current_state st)
                        end !! offset e) = current st (offset e)) as Hold.
  { unfold current. destruct (current_state st !! offset e) eqn:Hc.
    - by rewrite Hc.
    - by rewrite lookup_insert_eq. }
  unfold step. rewrite Hold.
  destruct (is_Write (op e)); simpl; [|done].
  destruct (decide (offset e = 0)); [|destruct (decide (offset e = 4));
    destruct (last_0x0_write st)]; done.
Qed.

Lemma step_index i e st :
  iw_value <$> last_0x0_write (step i e st) =
  if writes_to 0 e then Some (value e) else iw_value <$> last_0x0_write st.
Proof.
  unfold step, writes_to.
  destruct (is_Write (op e)); simpl; [|done].
  case_bool_decide as H0.
  - by rewrite decide_True.
  - rewrite decide_False by done.
    destruct (decide (offset e = 4)); destruct (last_0x0_write st); done.
Qed.

Lemma step_pairs i e st :
  pairs_0x0_0x4 (step i e st) =
  pairs_0x0_0x4 st ++
    (if writes_to 4 e then
       match last_0x0_write st with
       | Some w => [mkPair i (iw_value w) (value e)
                      (differs (current st 4) (value e))]
       | None => []
       end
     else []).
Proof.
  assert (default None (match current_state st !! offset e with
                        | Some _ => current_state st
                        | None => <[offset e := None]> (current_state st)
                        end !! offset e) = current st (offset e)) as Hold.
  { unfold current. destruct (current_state st !! offset e) eqn:Hc.
    - by rewrite Hc.
    - by rewrite lookup_insert_eq. }
  unfold step, writes_to. rewrite Hold.
  destruct (is_Write (op e)); simpl; [|by rewrite app_nil_r].
  destruct (decide (offset e = 0)) as [H0|H0]; simpl.
  - rewrite bool_decide_eq_false_2 by lia. by rewrite app_nil_r.
  - destruct (decide (offset e = 4)) as [H4|H4].
    + rewrite bool_decide_eq_true_2 by done. rewrite H4.
      destruct (last_0x0_write st); simpl; [done|by rewrite app_nil_r].
    + rewrite bool_decide_eq_false_2 by done.
      destruct (last_0x0_write st); simpl; by rewrite app_nil_r.
Qed.

Lemma step_all_changes i e st :
  all_changes (step i e st) =
  if is_Write (op e) && differs (current st (offset e)) (value e)
  then alter (λ l, l ++ [mkChange i (current st (offset e)) (value e)])
         (offset e) (init_changes e st)
  else init_changes e st.
Proof.
  assert (default None (match current_state st !! offset e with
                        | Some _ => current_state st
                        | None => <[offset e := None]> (current_state st)
                        end !! offset e) = current st (offset e)) as Hold.
  { unfold current. destruct (current_state st !! offset e) eqn:Hc.
    - by rewrite Hc.
    - by rewrite lookup_insert_eq. }
  unfold step, init_changes. rewrite Hold.
  destruct (is_Write (op e)); simpl; [|done].
  destruct (decide (offset e = 0)); [|destruct (decide (offset e = 4));
    destruct (last_0x0_write st)]; done.
Qed.

Lemma step_current_state_is_Some i e st off :
  is_Some (current_state (step i e st) !! off) ↔
  off = offset e ∨ is_Some (current_state st !! off).
Proof.
  assert (∀ m : gmap Z (option Z),
    is_Some (match m !! offset e with
             | Some _ => m | None => <[offset e := None]> m end !! off) ↔
    off = offset e ∨ is_Some (m !! off)) as Hinit.
  { intros m. destruct (m !! offset e) eqn:Hm.
    - split; [by right|]. intros [->|]; [by rewrite Hm|done].
    - rewrite lookup_insert_is_Some. destruct (decide (offset e = off)); naive_solver. }
  unfold step. destruct (is_Write (op e)); simpl; [|apply Hinit].
  assert (is_Some (<[offset e := Some (value e)]>
            (match current_state st !! offset e with
             | Some _ => current_state st
             | None => <[offset e := None]> (current_state st)
             end) !! off) ↔ off = offset e ∨ is_Some (current_state st !! off)) as Hw.
  { rewrite lookup_insert_is_Some, Hinit.
    destruct (decide (offset e = off)); naive_solver. }
  destruct (decide (offset e = 0)); [|destruct (decide (offset e = 4));
    destruct (last_0x0_write st)]; simpl; apply Hw.
Qed.

Lemma step_all_changes_is_Some i e st off :
  (∀ o, is_Some (all_changes st !! o) ↔ is_Some (current_state st !! o)) →
  is_Some (all_changes (step i e st) !! off) ↔
  off = offset e ∨ is_Some (all_changes st !! off).
Proof.
  intros Hdom.
  assert (is_Some (init_changes e st !! off) ↔
          off = offset e ∨ is_Some (all_changes st !! off)) as Hinit.
  { unfold init_changes. destruct (current_state st !! offset e) eqn:Hc.
    - split; [by right|]. intros [->|]; [|done]. apply Hdom. by rewrite Hc.
    - rewrite lookup_insert_is_Some. destruct (decide (offset e = off)); naive_solver. }
  rewrite step_all_changes.
  destruct (is_Write (op e) && differs (current st (offset e)) (value e)); [|done].
  by rewrite lookup_alter_is_Some.
Qed.

(** The change list of [off] grows by the record of a changing Write. *)
Lemma step_changes i e st off :
  (∀ o, is_Some (all_changes st !! o) ↔ is_Some (current_state st !! o)) →
  default [] (all_changes (step i e st) !! off) =
  default [] (all_changes st !! off) ++
    (if writes_to off e && differs (current st off) (value e)
     then [mkChange i (current st off) (value e)] else []).
Proof.
  intros Hdom.
  assert (∀ o, default [] (init_changes e st !! o) = default [] (all_changes st !! o))
    as Hinit.
  { intros o. unfold init_changes. destruct (current_state st !! offset e) eqn:Hc; [done|].
    destruct (decide (offset e = o)) as [Heq|Hne].
    - rewrite <- Heq, lookup_insert_eq.
      destruct (all_changes st !! offset e) eqn:Ha; [|done].
      assert (is_Some (current_state st !! offset e)) as Hs
        by (apply Hdom; by rewrite Ha).
      destruct Hs as [? Hs]. congruence.
    - by rewrite lookup_insert_ne. }
  assert (is_Some (init_changes e st !! offset e)) as [l0 Hl0].
  { unfold init_changes. destruct (current_state st !! offset e) eqn:Hc.
    - apply Hdom. by rewrite Hc.
    - by rewrite lookup_insert_eq. }
  rewrite step_all_changes. unfold writes_to.
  destruct (is_Write (op e)); simpl; [|by rewrite Hinit, app_nil_r].
  case_bool_decide as Hoff; simpl.
  - subst off. destruct (differs (current st (offset e)) (value e)).
    + rewrite lookup_alter_eq, <- (Hinit (offset e)), Hl0. done.
    + by rewrite Hinit, app_nil_r.
  - destruct (differs (current st (offset e)) (value e)).
    + rewrite lookup_alter_ne by done. by rewrite Hinit, app_nil_r.
    + by rewrite Hinit, app_nil_r.
Qed.

Lemma Inv_init : Inv [] init.
Proof.
  split; try done.
  - intros off. simpl. by rewrite !lookup_empty.
  - intros off. simpl. rewrite lookup_empty. split; [by intros [? ?]|].
    intros (e & He & _). by apply not_elem_of_nil in He.
Qed.

Lemma Inv_step l e st :
  Inv l st → Inv (l ++ [e]) (step (length l) e st).
Proof.
  intros [Hcur Hdom Hseen Hidx Hch Hpairs Htl]. split.
  - intros off. by rewrite step_current, written_value_snoc, Hcur.
  - intros off. rewrite step_all_changes_is_Some, step_current_state_is_Some by done.
    by rewrite Hdom.
  - intros off. rewrite step_current_state_is_Some, Hseen. split.
    + intros [->|(x & Hx & <-)].
      * exists e. split; [|done]. apply elem_of_app. right. by apply list_elem_of_singleton.
      * exists x. split; [|done]. apply elem_of_app. by left.
    + intros (x & Hx & <-). apply elem_of_app in Hx as [Hx|Hx].
      * right. eauto.
      * apply list_elem_of_singleton in Hx as ->. by left.
  - by rewrite step_index, written_value_snoc, Hidx.
  - intros off. rewrite step_changes, Hch, collect_snoc by done. f_equal.
    + apply collect_ext. intros i x Hi. symmetry. apply change_at_app.
      apply lookup_lt_Some in Hi. lia.
    + unfold change_at. rewrite last_write_before_length, Hcur.
      by destruct (writes_to off e && differs (written_value l off) (value e)).
  - rewrite step_pairs, Hpairs, collect_snoc. f_equal.
    + apply collect_ext. intros i x Hi. symmetry. apply pair_at_app.
      apply lookup_lt_Some in Hi. lia.
    + unfold pair_at. rewrite !last_write_before_length, Hcur, <- Hidx.
      destruct (writes_to 4 e); [|done]. by destruct (last_0x0_write st).
  - rewrite step_timeline, Htl, imap_app. f_equal.
    + apply imap_ext. intros i x Hi. unfold timeline_at.
      rewrite last_write_before_app; [done|]. apply lookup_lt_Some in Hi. lia.
    + simpl. unfold timeline_at. rewrite Nat.add_0_r.
      by rewrite last_write_before_length, Hcur.
Qed.

Lemma analyze_log_Inv entries : Inv entries (analyze_log entries).
Proof.
  induction entries as [|e l IH] using rev_ind.
  - apply Inv_init.
  - rewrite analyze_log_snoc. by apply Inv_step.
Qed.

End ScriptyFacts.

(** ** One table of [analyze_registers], replayed on its own accesses *)
Module TableFacts.
Import Scripty2 TableReplay.

Lemma play_app i l1 l2 t :
  play i (l1 ++ l2) t = play (i + length l1) l2 (play i l1 t).
Proof.
  revert i t. induction l1 as [|a l1 IH]; intros i t; simpl.
  - by rewrite Nat.add_0_r.
  - rewrite IH. f_equal. lia.
Qed.

Lemma replay_snoc acts a :
  replay (acts ++ [a]) = apply_action (length acts) a (replay acts).
Proof. unfold replay. by rewrite play_app. Qed.

Lemma reads_lt acts k i v : reads acts k i v → (i < length acts)%nat.
Proof. apply lookup_lt_Some. Qed.

Lemma writes_lt acts k i : writes acts k i → (i < length acts)%nat.
Proof. apply lookup_lt_Some. Qed.

Lemma touches_lt acts k i : touches acts k i → (i < length acts)%nat.
Proof. intros [x Hx]. by apply lookup_lt_Some in Hx. Qed.

Lemma reads_touches acts k i v : reads acts k i v → touches acts k i.
Proof. intros H. by exists (ARead v). Qed.

Lemma writes_touches acts k i : writes acts k i → touches acts k i.
Proof. intros H. by exists AWrite. Qed.

Lemma touches_cases acts k i :
  touches acts k i → writes acts k i ∨ ∃ v, reads acts k i v.
Proof. intros [[v|] Hx]; [right; by exists v|by left]. Qed.

Lemma reads_not_writes acts k k' i v : reads acts k i v → ¬ writes acts k' i.
Proof. unfold reads, writes. congruence. Qed.

Lemma reads_inj acts k i v v' : reads acts k i v → reads acts k i v' → v = v'.
Proof. unfold reads. congruence. Qed.

Lemma reads_snoc acts a k i v :
  reads (acts ++ [a]) k i v ↔
  reads acts k i v ∨ (i = length acts ∧ a = Some (k, ARead v)).
Proof.
  unfold reads. rewrite lookup_snoc_Some. split.
  - intros [[_ H]|[-> H]]; eauto.
  - intros [H|[-> H]]; [left|right]; eauto using lookup_lt_Some.
Qed.

Lemma writes_snoc acts a k i :
  writes (acts ++ [a]) k i ↔
  writes acts k i ∨ (i = length acts ∧ a = Some (k, AWrite)).
Proof.
  unfold writes. rewrite lookup_snoc_Some. split.
  - intros [[_ H]|[-> H]]; eauto.
  - intros [H|[-> H]]; [left|right]; eauto using lookup_lt_Some.
Qed.

Lemma touches_snoc acts a k i :
  touches (acts ++ [a]) k i ↔
  touches acts k i ∨ (i = length acts ∧ ∃ x, a = Some (k, x)).
Proof.
  unfold touches. split.
  - intros [x Hx]. apply lookup_snoc_Some in Hx as [[_ H]|[-> H]]; eauto.
  - intros [[x Hx]|[-> [x Hx]]]; exists x; apply lookup_snoc_Some;
      [left|right]; eauto using lookup_lt_Some.
Qed.

Lemma TInv_empty : TInv [] empty_table.
Proof.
  split; simpl.
  - intros k. split; [set_solver|]. by intros [w Hw].
  - intros k. split; [set_solver|]. intros (r & Hr & _). by apply not_elem_of_nil in Hr.
  - intros k m [x Hx]. done.
  - intros r. split; [intros Hr; by apply not_elem_of_nil in Hr|]. by intros [Hr _].
  - intros k _ m [x Hx]. done.
  - intros k s Hs. by rewrite lookup_empty in Hs.
  - intros k s Hs. by rewrite lookup_empty in Hs.
  - intros d. split; [intros Hd; by apply not_elem_of_nil in Hd|].
    by intros (i & v1 & _ & _ & Hr & _).
Qed.

Lemma TInv_none acts t : TInv acts t → TInv (acts ++ [None]) t.
Proof.
  assert (∀ k i v, reads (acts ++ [None]) k i v ↔ reads acts k i v) as Hr.
  { intros. rewrite reads_snoc. naive_solver. }
  assert (∀ k i, writes (acts ++ [None]) k i ↔ writes acts k i) as Hw.
  { intros. rewrite writes_snoc. naive_solver. }
  assert (∀ k i, touches (acts ++ [None]) k i ↔ touches acts k i) as Ht.
  { intros. rewrite touches_snoc. naive_solver. }
  intros [HW HR HT HB HS0 HS1 HS2 HD]. split.
  - intros k. rewrite HW. by setoid_rewrite Hw.
  - done.
  - intros k m. rewrite Ht. apply HT.
  - intros r. rewrite HB, Hr. by setoid_rewrite Ht.
  - intros k Hk m. rewrite Ht. by apply HS0.
  - intros k s Hk Hs. setoid_rewrite Hr. setoid_rewrite Ht. by apply (HS1 k s).
  - intros k s Hk Hs. setoid_rewrite Hr. setoid_rewrite Hw. by apply (HS2 k s).
  - intros d. rewrite HD. setoid_rewrite Hr. by setoid_rewrite Ht.
Qed.

Lemma reg_state_on_write k t k' :
  reg_state (on_write k t) !! k' =
  if decide (k = k')
  then Some (mkRegState (from_option last_read None (reg_state t !! k)) true)
  else reg_state t !! k'.
Proof.
  unfold on_write; simpl.
  destruct (reg_state t !! k) eqn:Hk; simpl; case_decide as Hkk;
    by rewrite ?(lookup_insert_ne _ _ _ _ Hkk), <- ?Hkk, ?lookup_insert_eq.
Qed.

Lemma TInv_write acts t k :
  TInv acts t → TInv (acts ++ [Some (k, AWrite)]) (on_write k t).
Proof.
  set (n := length acts).
  assert (∀ k' i v, reads (acts ++ [Some (k, AWrite)]) k' i v ↔ reads acts k' i v) as Hr.
  { intros. rewrite reads_snoc. naive_solver. }
  assert (∀ k' i, writes (acts ++ [Some (k, AWrite)]) k' i ↔
                  writes acts k' i ∨ (i = n ∧ k' = k)) as Hw.
  { intros. rewrite writes_snoc. naive_solver. }
  assert (∀ k' i, touches (acts ++ [Some (k, AWrite)]) k' i ↔
                  touches acts k' i ∨ (i = n ∧ k' = k)) as Ht.
  { intros. rewrite touches_snoc. naive_solver. }
  intros [HW HR HT HB HS0 HS1 HS2 HD]. split.
  - intros k'. simpl. rewrite elem_of_union, elem_of_singleton, HW.
    setoid_rewrite Hw. naive_solver.
  - done.
  - intros k' m. simpl. rewrite Ht, elem_of_union, elem_of_singleton.
    intros [Hm|[_ ->]]; [|by left; left]. destruct (HT _ _ Hm); auto.
  - intros r. simpl. rewrite HB, Hr. split; intros [Hrd Hno]; (split; [done|]).
    + intros m Hm. rewrite Ht. intros [Hm'|[-> _]]; [by eapply Hno|].
      apply reads_lt in Hrd. unfold n in Hm. lia.
    + intros m Hm Hm'. eapply Hno; [done|]. apply Ht. by left.
  - intros k' Hk' m. rewrite reg_state_on_write in Hk'. case_decide; [done|].
    rewrite Ht. intros [Hm|[_ ->]]; [by eapply HS0|done].
  - intros k' s Hk' Hs. rewrite reg_state_on_write in Hk'.
    case_decide; [by simplify_eq|].
    destruct (HS1 k' s Hk' Hs) as (i & v & Hi & Hv & Hno).
    exists i, v. rewrite Hr. split_and!; [done..|].
    intros m Hm. rewrite Ht. intros [Hm'|[_ ->]]; [by eapply Hno|done].
  - intros k' s Hk' Hs. rewrite reg_state_on_write in Hk'. case_decide as Hkk.
    + subst k'. exists n. rewrite Hw. split; [by right|].
      intros m v Hm. rewrite Hr. intros Hm'%reads_lt. unfold n in Hm. lia.
    + destruct (HS2 k' s Hk' Hs) as (w & Hw' & Hno).
      exists w. rewrite Hw. split; [by left|].
      intros m v Hm. rewrite Hr. by apply Hno.
  - intros d. simpl. rewrite HD. setoid_rewrite Hr.
    split; intros (i & v1 & Ho & Hlt & Hr1 & Hr2 & Hne & Hno);
      exists i, v1; split_and!; try done.
    + intros m Hm. rewrite Ht. intros [Hm'|[-> _]]; [by eapply Hno|].
      apply reads_lt in Hr2. unfold n in Hm. lia.
    + intros m Hm Hm'. eapply Hno; [done|]. apply Ht. by left.
Qed.

Lemma differs_true x v : differs x v = true ↔ x ≠ Some v.
Proof.
  destruct x as [y|]; simpl; [|done].
  rewrite negb_true_iff, Z.eqb_neq. naive_solver.
Qed.

(** The read-before-write part of a Read of [k]. *)
Lemma TInv_read_rbw acts t k v :
  TInv acts t →
  let t' := on_read k v (length acts) t in
  let acts' := acts ++ [Some (k, ARead v)] in
  (∀ k', k' ∈ reported_rbw t' ↔ ∃ r, r ∈ read_before_write t' ∧ rbw_key r = k') ∧
  (∀ k' m, touches acts' k' m → k' ∈ written t' ∨ k' ∈ reported_rbw t') ∧
  (∀ r, r ∈ read_before_write t' ↔
        reads acts' (rbw_key r) (rbw_line r) (rbw_value r) ∧
        ∀ m, (m < rbw_line r)%nat → ¬ touches acts' (rbw_key r) m).
Proof.
  set (n := length acts).
  intros [HW HR HT HB HS0 HS1 HS2 HD] t' acts'.
  assert (∀ k' i v', reads acts' k' i v' ↔
                     reads acts k' i v' ∨ (i = n ∧ k' = k ∧ v' = v)) as Hr.
  { intros. unfold acts'. rewrite reads_snoc. naive_solver. }
  assert (∀ k' i, touches acts' k' i ↔ touches acts k' i ∨ (i = n ∧ k' = k)) as Ht.
  { intros. unfold acts'. rewrite touches_snoc. naive_solver. }
  assert (∀ r, r ∈ read_before_write t → (rbw_line r < n)%nat) as Hline.
  { intros r [Hrd _]%HB. by apply reads_lt in Hrd. }
  assert (∀ m, touches acts k m → k ∈ written t ∨ k ∈ reported_rbw t) as Hk by eauto.
  subst t'. unfold on_read; simpl. fold n.
  destruct (bool_decide (k ∉ written t)) eqn:E1;
    [apply bool_decide_eq_true in E1|apply bool_decide_eq_false in E1];
    (destruct (bool_decide (k ∉ reported_rbw t)) eqn:E2;
      [apply bool_decide_eq_true in E2|apply bool_decide_eq_false in E2]); simpl.
  1: { (* the record is emitted *)
    split_and!.
    - intros k'. rewrite elem_of_union, elem_of_singleton, HR. split.
      + intros [->|(r & Hr' & <-)].
        * exists (mkRbw k v n). split; [|done]. apply elem_of_app. right.
          by apply list_elem_of_singleton.
        * exists r. split; [|done]. apply elem_of_app. by left.
      + intros (r & Hr' & <-). apply elem_of_app in Hr' as [Hr'|Hr'].
        * right. eauto.
        * apply list_elem_of_singleton in Hr' as ->. by left.
    - intros k' m. rewrite Ht, elem_of_union, elem_of_singleton.
      intros [Hm|[_ ->]]; [|by right; left]. destruct (HT _ _ Hm); auto.
    - intros r. rewrite elem_of_app, list_elem_of_singleton, HB, Hr. split.
      + intros [[Hrd Hno]| ->].
        * split; [by left|]. intros m Hm. rewrite Ht.
          intros [Hm'|[-> _]]; [by eapply Hno|]. apply reads_lt in Hrd. lia.
        * simpl. split; [by right|]. intros m Hm. rewrite Ht.
          intros [Hm'|[-> _]]; [|lia]. destruct (Hk _ Hm'); done.
      + intros [[Hrd|(Hl & Hkey & Hv)] Hno].
        * left. split; [done|]. intros m Hm Hm'. eapply Hno; [done|].
          apply Ht. by left.
        * right. destruct r; simpl in *. by subst. }
  all: split_and!.
  all: try done.
  all: try (intros k' m; rewrite Ht; intros [Hm|[_ ->]];
            [by apply (HT _ m)|]; try (by right; apply dec_stable);
            try (by left; apply dec_stable)).
  all: intros r; rewrite HB, Hr; split.
  all: try (intros [Hrd Hno]; split; [by left|]; intros m Hm; rewrite Ht;
            intros [Hm'|[-> _]]; [by eapply Hno|]; apply reads_lt in Hrd; lia).
  all: intros [[Hrd|(Hl & Hkey & Hv)] Hno];
         [split; [done|]; intros m Hm Hm'; eapply Hno; [done|]; apply Ht; by left|].
  all: exfalso.
  - (* already reported: an earlier Read of [k] is on record *)
    apply dec_stable in E2. apply HR in E2 as (r' & Hr' & Hkr).
    apply (Hno (rbw_line r')); [rewrite Hl; by apply Hline|].
    apply Ht. left. rewrite Hkey, <- Hkr. eapply reads_touches. by apply HB.
  - (* already written *)
    apply dec_stable in E1. apply HW in E1 as (w & Hw).
    apply (Hno w); [rewrite Hl; by apply writes_lt in Hw|].
    apply Ht. left. rewrite Hkey. by eapply writes_touches.
  - apply dec_stable in E1. apply HW in E1 as (w & Hw).
    apply (Hno w); [rewrite Hl; by apply writes_lt in Hw|].
    apply Ht. left. rewrite Hkey. by eapply writes_touches.
Qed.

Lemma TInv_read acts t k v :
  TInv acts t → TInv (acts ++ [Some (k, ARead v)]) (on_read k v (length acts) t).
Proof.
  intros HI. destruct (TInv_read_rbw acts t k v HI) as (HR' & HT' & HB').
  destruct HI as [HW HR HT HB HS0 HS1 HS2 HD].
  set (n := length acts) in *. set (acts' := acts ++ [Some (k, ARead v)]) in *.
  assert (∀ k' i v', reads acts' k' i v' ↔
                     reads acts k' i v' ∨ (i = n ∧ k' = k ∧ v' = v)) as Hr.
  { intros. unfold acts'. rewrite reads_snoc. naive_solver. }
  assert (∀ k' i, writes acts' k' i ↔ writes acts k' i) as Hw.
  { intros. unfold acts'. rewrite writes_snoc. naive_solver. }
  assert (∀ k' i, touches acts' k' i ↔ touches acts k' i ∨ (i = n ∧ k' = k)) as Ht.
  { intros. unfold acts'. rewrite touches_snoc. naive_solver. }
  split; [|done..| | | |].
  - intros k'. simpl. rewrite HW. by setoid_rewrite Hw.
  - intros k' Hk' m. simpl in Hk'. apply lookup_insert_None in Hk' as [Hk' Hne].
    rewrite Ht. intros [Hm|[_ ->]]; [by eapply HS0|done].
  - intros k' s Hk' Hs. simpl in Hk'. apply lookup_insert_Some in Hk' as [[<- <-]|[Hne Hk']].
    + exists n, v. simpl. rewrite Hr. split_and!; [by right|done|].
      intros m Hm. rewrite Ht. intros [Hm'%touches_lt|[-> _]]; unfold n in *; lia.
    + destruct (HS1 k' s Hk' Hs) as (i & v0 & Hi & Hv & Hno).
      exists i, v0. rewrite Hr. split_and!; [by left|done|].
      intros m Hm. rewrite Ht. intros [Hm'|[_ ->]]; [by eapply Hno|done].
  - intros k' s Hk' Hs. simpl in Hk'. apply lookup_insert_Some in Hk' as [[<- <-]|[Hne Hk']].
    + done.
    + destruct (HS2 k' s Hk' Hs) as (w & Hw' & Hno).
      exists w. rewrite Hw. split; [done|].
      intros m v' Hm. rewrite Hr. intros [Hm'|(_ & -> & _)]; [by eapply Hno|done].
  - (* device-controlled records *)
    assert (∀ d, d ∈ device_controlled t →
              ∃ i v1, old_value d = Some v1 ∧ (i < dc_line d)%nat ∧
                reads acts' (dc_key d) i v1 ∧
                reads acts' (dc_key d) (dc_line d) (new_value d) ∧
                v1 ≠ new_value d ∧
                ∀ m, (i < m < dc_line d)%nat → ¬ touches acts' (dc_key d) m) as Hold.
    { intros d (i & v1 & Ho & Hlt & Hr1 & Hr2 & Hne & Hno)%HD.
      exists i, v1. rewrite !Hr. split_and!; [done|done|by left|by left|done|].
      intros m Hm. rewrite Ht. intros [Hm'|[-> _]]; [by eapply Hno|].
      apply reads_lt in Hr2. unfold n in *. lia. }
    assert (∀ d i v1, old_value d = Some v1 → (i < dc_line d)%nat →
              reads acts' (dc_key d) i v1 →
              reads acts' (dc_key d) (dc_line d) (new_value d) →
              v1 ≠ new_value d →
              (∀ m, (i < m < dc_line d)%nat → ¬ touches acts' (dc_key d) m) →
              d ∈ device_controlled t ∨
              (dc_line d = n ∧ dc_key d = k ∧ new_value d = v ∧ reads acts k i v1 ∧
               ∀ m, (i < m)%nat → ¬ touches acts k m)) as Hnew.
    { intros d i v1 Ho Hlt Hr1 Hr2 Hne Hno. apply Hr in Hr2 as [Hr2|(Hl & Hk & Hv)].
      - left. apply HD. exists i, v1. split_and!; try done.
        + apply Hr in Hr1 as [Hr1|(Hl & _)]; [done|]. apply reads_lt in Hr2.
          unfold n in *. lia.
        + intros m Hm Hm'. eapply Hno; [done|]. apply Ht. by left.
      - right. split_and!; try done.
        + apply Hr in Hr1 as [Hr1|(Hl' & _)]; [by rewrite <- Hk|lia].
        + intros m Hm Hm'. pose proof (touches_lt _ _ _ Hm') as Hlt'.
          eapply (Hno m); [unfold n in *; lia|]. apply Ht. left. by rewrite Hk. }
    intros d. simpl. destruct (reg_state t !! k) as [s|] eqn:Hk.
    2: { (* no access to [k] so far *)
      split; [by apply Hold|].
      intros (i & v1 & Ho & Hlt & Hr1 & Hr2 & Hne & Hno).
      destruct (Hnew d i v1) as [Hd|(_ & _ & _ & Hrd & _)]; try done.
      exfalso. eapply HS0; [done|]. by eapply reads_touches. }
    destruct (write_since_read s) eqn:Hs; simpl.
    { (* a Write since the last Read *)
      split; [by apply Hold|].
      intros (i & v1 & Ho & Hlt & Hr1 & Hr2 & Hne & Hno).
      destruct (Hnew d i v1) as [Hd|(_ & _ & _ & Hrd & Hno')]; try done.
      exfalso. destruct (HS2 k s Hk Hs) as (w & Hw' & Hnr).
      destruct (decide (w < i)%nat) as [Hwi|Hwi]; [by eapply Hnr|].
      destruct (decide (w = i)) as [->|Hne']; [by eapply reads_not_writes|].
      eapply (Hno' w); [lia|]. by eapply writes_touches. }
    destruct (HS1 k s Hk Hs) as (i0 & v0 & Hi0 & Hv0 & Hno0).
    destruct (differs (last_read s) v) eqn:Hdiff.
    + (* the value moved: a record *)
      rewrite elem_of_app, list_elem_of_singleton. split.
      * intros [Hd| ->]; [by apply Hold|]. simpl.
        exists i0, v0. rewrite !Hr. split_and!.
        -- done.
        -- apply reads_lt in Hi0. by unfold n.
        -- by left.
        -- by right.
        -- apply differs_true in Hdiff. congruence.
        -- intros m Hm. rewrite Ht. intros [Hm'|[-> _]]; [|lia].
           eapply Hno0; [|done]. lia.
      * intros (i & v1 & Ho & Hlt & Hr1 & Hr2 & Hne & Hno).
        destruct (Hnew d i v1) as [Hd|(Hl & Hkey & Hv & Hrd & Hno')]; try done; [by left|].
        right. assert (i = i0) as ->.
        { destruct (decide (i < i0)%nat) as [Hii|Hii].
          - exfalso. eapply (Hno' i0); [done|]. by eapply reads_touches.
          - destruct (decide (i0 < i)%nat) as [Hii'|Hii']; [|lia].
            exfalso. eapply (Hno0 i); [done|]. by eapply reads_touches. }
        assert (v1 = v0) as -> by (by eapply reads_inj).
        destruct d; simpl in *. subst. by rewrite Hv0.
    + (* the same value: no record *)
      split; [by apply Hold|].
      intros (i & v1 & Ho & Hlt & Hr1 & Hr2 & Hne & Hno).
      destruct (Hnew d i v1) as [Hd|(Hl & Hkey & Hv & Hrd & Hno')]; try done.
      exfalso. assert (i = i0) as ->.
      { destruct (decide (i < i0)%nat) as [Hii|Hii].
        - exfalso. eapply (Hno' i0); [done|]. by eapply reads_touches.
        - destruct (decide (i0 < i)%nat) as [Hii'|Hii']; [|lia].
          exfalso. eapply (Hno0 i); [done|]. by eapply reads_touches. }
      assert (v1 = v0) as -> by (by eapply reads_inj).
      rewrite Hv0 in Hdiff. simpl in Hdiff. apply negb_false_iff, Z.eqb_eq in Hdiff.
      congruence.
Qed.

Lemma TInv_step acts t a :
  TInv acts t → TInv (acts ++ [a]) (apply_action (length acts) a t).
Proof.
  destruct a as [[k [v|]]|]; simpl.
  - apply TInv_read.
  - apply TInv_write.
  - apply TInv_none.
Qed.

Lemma replay_TInv acts : TInv acts (replay acts).
Proof.
  induction acts as [|a acts IH] using rev_ind.
  - apply TInv_empty.
  - rewrite replay_snoc. by apply TInv_step.
Qed.

(** An iteration leaves the read-before-write list as it is or appends
    one record, of the current line and of a key not yet reported. *)
Lemma rbw_apply_action i a t :
  read_before_write (apply_action i a t) = read_before_write t ∨
  ∃ k v, (k ∉ reported_rbw t) ∧
         read_before_write (apply_action i a t) =
         read_before_write t ++ [mkRbw k v i].
Proof.
  destruct a as [[k [v|]]|]; simpl; [|by left..].
  destruct (bool_decide (k ∉ written t)); simpl; [|by left].
  case_bool_decide as Hk; simpl; [|by left].
  right. by exists k, v.
Qed.

Lemma replay_rbw_lines acts :
  StronglySorted lt (rbw_line <$> read_before_write (replay acts)).
Proof.
  induction acts as [|a acts IH] using rev_ind; [constructor|].
  rewrite replay_snoc.
  destruct (rbw_apply_action (length acts) a (replay acts))
    as [->|(k & v & _ & ->)]; [done|].
  rewrite fmap_app. apply StronglySorted_app_2; [|done|repeat constructor].
  intros x1 x2 (r & -> & Hr)%list_elem_of_fmap Hx2.
  apply list_elem_of_singleton in Hx2 as ->. simpl.
  apply (inv_rbw _ _ (replay_TInv acts)) in Hr as [Hr _].
  by apply reads_lt in Hr.
Qed.

Lemma replay_rbw_keys acts :
  NoDup (rbw_key <$> read_before_write (replay acts)).
Proof.
  induction acts as [|a acts IH] using rev_ind; [constructor|].
  rewrite replay_snoc.
  destruct (rbw_apply_action (length acts) a (replay acts))
    as [->|(k & v & Hk & ->)]; [done|].
  rewrite fmap_app. apply NoDup_app. split_and!; [done| |apply NoDup_singleton].
  intros x (r & -> & Hr)%list_elem_of_fmap Hx.
  apply list_elem_of_singleton in Hx. simpl in Hx.
  apply Hk. apply (inv_reported _ _ (replay_TInv acts)). eauto.
Qed.

End TableFacts.

(** ** [analyze_registers]: each table replays its own accesses *)
Module Scripty2Facts.
Import Trace TraceFacts Scripty2 TableReplay TableFacts.

Lemma registers_loop_app i l1 l2 st :
  loop i (l1 ++ l2) st = loop (i + length l1) l2 (loop i l1 st).
Proof.
  revert i st. induction l1 as [|e l1 IH]; intros i st; simpl.
  - by rewrite Nat.add_0_r.
  - rewrite IH. f_equal. lia.
Qed.

Lemma run_snoc l e : run (l ++ [e]) = step (length l) e (run l).
Proof. unfold run. by rewrite registers_loop_app. Qed.

Lemma step_current_index i e st :
  current_index (step i e st) =
  if writes_to 0 e then Some (value e) else current_index st.
Proof.
  unfold step, writes_to. destruct (decide (offset e = 0)) as [H0|H0].
  - rewrite bool_decide_eq_true_2 by done. by destruct (is_Write (op e)).
  - rewrite bool_decide_eq_false_2, andb_false_r by done.
    destruct (decide (offset e = 4)); destruct (current_index st) eqn:Hci;
      destruct (is_Read (op e)); destruct (is_Write (op e)); simpl; done.
Qed.

Lemma step_table s i e st :
  table s (step i e st) =
  apply_action i (action_of s (current_index st) e) (table s st).
Proof.
  unfold step, action_of, access_of.
  destruct (decide (offset e = 0)).
  { destruct (is_Write (op e)); by destruct s. }
  destruct (decide (offset e = 4)).
  { destruct (current_index st); [|by destruct s].
    destruct (is_Read (op e)); [by destruct s|].
    destruct (is_Write (op e)); by destruct s. }
  destruct (is_Read (op e)); [by destruct s|].
  destruct (is_Write (op e)); by destruct s.
Qed.

Lemma actions_snoc s l e :
  actions s (l ++ [e]) = actions s l ++ [action_of s (written_value l 0) e].
Proof.
  unfold actions. rewrite imap_app. f_equal.
  - apply imap_ext. intros i x Hi. rewrite last_write_before_app; [done|].
    apply lookup_lt_Some in Hi. lia.
  - simpl. by rewrite Nat.add_0_r, last_write_before_length.
Qed.

Lemma length_actions s l : length (actions s l) = length l.
Proof. apply length_imap. Qed.

Lemma run_current_index l : current_index (run l) = written_value l 0.
Proof.
  induction l as [|e l IH] using rev_ind; [done|].
  by rewrite run_snoc, step_current_index, written_value_snoc, IH.
Qed.

Lemma run_table s l : table s (run l) = replay (actions s l).
Proof.
  induction l as [|e l IH] using rev_ind; [by destruct s|].
  rewrite run_snoc, step_table, actions_snoc, replay_snoc, IH.
  by rewrite run_current_index, length_actions.
Qed.

Lemma is_Read_true o : is_Read o = true ↔ o = "Read".
Proof. apply String.eqb_eq. Qed.

Lemma is_Write_true o : is_Write o = true ↔ o = "Write".
Proof. apply String.eqb_eq. Qed.

Lemma access_of_read e v : access_of e = Some (ARead v) ↔ op e = "Read" ∧ value e = v.
Proof.
  unfold access_of. destruct (is_Read (op e)) eqn:Hr.
  - apply is_Read_true in Hr. naive_solver.
  - assert (op e ≠ "Read") by (intros ?%is_Read_true; congruence).
    destruct (is_Write (op e)); naive_solver.
Qed.

Lemma access_of_write e : access_of e = Some AWrite ↔ op e = "Write".
Proof.
  unfold access_of. destruct (is_Read (op e)) eqn:Hr.
  - apply is_Read_true in Hr. split; [done|]. intros Hw. by rewrite Hw in Hr.
  - destruct (is_Write (op e)) eqn:Hw.
    + by apply is_Write_true in Hw.
    + split; [done|]. intros ?%is_Write_true. congruence.
Qed.

Lemma key_at_lookup l i e :
  l !! i = Some e → key_at l i = key_of (last_write_before l i 0) e.
Proof. intros H. unfold key_at, key_of. by rewrite H. Qed.

Lemma action_of_Some s ci e k x :
  action_of s ci e = Some (k, x) ↔ access_of e = Some x ∧ key_of ci e = Some (s, k).
Proof.
  unfold action_of, key_of.
  destruct (decide (offset e = 0)); [naive_solver|].
  destruct (decide (offset e = 4)).
  - destruct s, ci as [c|]; simpl; try naive_solver.
    destruct (access_of e); simpl; naive_solver.
  - destruct s; simpl; try naive_solver.
    destruct (access_of e); simpl; naive_solver.
Qed.

Lemma reads_actions s l k i v :
  reads (actions s l) k i v ↔ read_at l s k i v.
Proof.
  unfold reads, actions, read_at. rewrite list_lookup_imap. split.
  - destruct (l !! i) as [e|] eqn:Hl; simpl; [|done]. intros [= H].
    apply action_of_Some in H as [[? ?]%access_of_read ?].
    exists e. by rewrite (key_at_lookup _ _ e).
  - intros (e & Hl & Hop & Hv & Hk). rewrite Hl. simpl. do 2 f_equal.
    rewrite (key_at_lookup _ _ e) in Hk by done.
    apply action_of_Some. split; [|done]. by apply access_of_read.
Qed.

Lemma writes_actions s l k i :
  writes (actions s l) k i ↔ write_at l s k i.
Proof.
  unfold writes, actions, write_at. rewrite list_lookup_imap. split.
  - destruct (l !! i) as [e|] eqn:Hl; simpl; [|done]. intros [= H].
    apply action_of_Some in H as [?%access_of_write ?].
    exists e. by rewrite (key_at_lookup _ _ e).
  - intros (e & Hl & Hop & Hk). rewrite Hl. simpl. do 2 f_equal.
    rewrite (key_at_lookup _ _ e) in Hk by done.
    apply action_of_Some. split; [|done]. by apply access_of_write.
Qed.

Lemma touches_actions s l k i :
  touches (actions s l) k i ↔ write_at l s k i ∨ ∃ v, read_at l s k i v.
Proof.
  rewrite <- writes_actions. setoid_rewrite <- reads_actions. split.
  - apply touches_cases.
  - intros [?|[v ?]]; eauto using writes_touches, reads_touches.
Qed.

Lemma rbw_records_table s l :
  rbw_records s l = read_before_write (replay (actions s l)).
Proof. rewrite <- run_table. by destruct s. Qed.

Lemma dc_records_table s l :
  dc_records s l = device_controlled (replay (actions s l)).
Proof. rewrite <- run_table. by destruct s. Qed.

Lemma state_table_table s l :
  state_table s l = reg_state (replay (actions s l)).
Proof. rewrite <- run_table. by destruct s. Qed.

End Scripty2Facts.

(** ** [sorted(..., key=...)] as [write_report] calls it *)
Module SortedFacts.
Import Scripty2 ReportOrder.

Lemma insert_by_key_perm x l : insert_by_key x l ≡ₚ x :: l.
Proof.
  induction l as [|y l IH]; simpl; [done|].
  destruct (rbw_key x <? rbw_key y)%Z; [done|].
  rewrite IH. apply Permutation_swap.
Qed.

Lemma insert_by_key_sorted x l :
  StronglySorted key_le l → StronglySorted key_le (insert_by_key x l).
Proof.
  induction l as [|y l IH]; simpl; intros Hl.
  - repeat constructor.
  - apply StronglySorted_cons in Hl as [Hy Hl].
    destruct (rbw_key x <? rbw_key y)%Z eqn:Hxy.
    + apply Z.ltb_lt in Hxy. apply StronglySorted_cons. split.
      * constructor; [unfold key_le; lia|].
        eapply Forall_impl; [done|]. unfold key_le. intros z Hz. lia.
      * by apply StronglySorted_cons.
    + apply Z.ltb_ge in Hxy. apply StronglySorted_cons. split; [|by apply IH].
      rewrite insert_by_key_perm. by constructor.
Qed.

Lemma fold_insert_perm l acc :
  fold_left (λ acc x, insert_by_key x acc) l acc ≡ₚ acc ++ l.
Proof.
  revert acc. induction l as [|x l IH]; intros acc; simpl.
  - by rewrite app_nil_r.
  - rewrite IH, insert_by_key_perm. simpl. apply Permutation_middle.
Qed.

Lemma fold_insert_sorted l acc :
  StronglySorted key_le acc →
  StronglySorted key_le (fold_left (λ acc x, insert_by_key x acc) l acc).
Proof.
  revert acc. induction l as [|x l IH]; intros acc Hacc; simpl; [done|].
  by apply IH, insert_by_key_sorted.
Qed.

Lemma sorted_by_key_perm l : sorted_by_key l ≡ₚ l.
Proof. unfold sorted_by_key. by rewrite fold_insert_perm. Qed.

Lemma sorted_by_key_sorted l : StronglySorted key_le (sorted_by_key l).
Proof. apply fold_insert_sorted. constructor. Qed.

Lemma sorted_keys_strict (l : list Z) :
  StronglySorted Z.le l → NoDup l → StronglySorted Z.lt l.
Proof.
  induction l as [|x l IH]; [constructor|].
  intros [Hx Hl]%StronglySorted_cons [Hnx Hnd]%NoDup_cons.
  apply StronglySorted_cons. split; [|by apply IH].
  apply Forall_forall. intros y Hy.
  rewrite Forall_forall in Hx. specialize (Hx y Hy).
  assert (x ≠ y) by (intros ->; done). lia.
Qed.

End SortedFacts.

(** ** [parse_log]: one line at a time *)
Module ParseLogFacts.
Import Trace ParseLog LineByLine.

Lemma parse_line_acc entries line :
  parse_line entries line = entries ++ parse_line [] line.
Proof.
  unfold parse_line.
  destruct (String.prefix "Operation" line || String.prefix "----" line
            || String.eqb (strip line) ""); [by rewrite app_nil_r|].
  destruct (split line) as [|o [|p1 [|p2 [|p3 rest]]]]; try by rewrite app_nil_r.
  destruct (int16 p1); [|by rewrite app_nil_r].
  destruct (int16 p2); [|by rewrite app_nil_r].
  destruct (int16 p3); [done|by rewrite app_nil_r].
Qed.

Lemma parse_line_entry line :
  parse_line [] line = match line_entry line with Some e => [e] | None => [] end.
Proof.
  unfold line_entry, parse_line.
  destruct (String.prefix "Operation" line || String.prefix "----" line
            || String.eqb (strip line) ""); [done|].
  destruct (split line) as [|o [|p1 [|p2 [|p3 rest]]]]; try done.
  destruct (int16 p1); [|done]. destruct (int16 p2); [|done].
  by destruct (int16 p3).
Qed.

Lemma fold_parse_line ls entries :
  fold_left parse_line ls entries = entries ++ omap line_entry ls.
Proof.
  revert entries. induction ls as [|line ls IH]; intros entries; simpl.
  - by rewrite app_nil_r.
  - rewrite IH, parse_line_acc, parse_line_entry, <- app_assoc. f_equal.
    by destruct (line_entry line).
Qed.



End ParseLogFacts.

(** ** The two scenarios of the specification *)

(** A lone Read of the never-written offset 0x8: one read-before-write
    record for the direct key 0x8 with value 0x1, no other record. *)
Example scenario_lone_read :
  Scripty2.analyze_registers [mkEntry "Read" 8 1 4] =
  ([], [Scripty2.mkRbw 8 1 0], [], []).
Proof. vm_compute. reflexivity. Qed.

(** Write, then two Reads that differ: one device-controlled record
    (key 0x8, old 0x1, new 0x2), no read-before-write record. *)
Example scenario_value_moves :
  Scripty2.analyze_registers
    [mkEntry "Write" 8 1 4; mkEntry "Read" 8 1 4; mkEntry "Read" 8 2 4] =
  ([], [], [], [Scripty2.mkDc 8 (Some 1) 2 2]).
Proof. vm_compute. reflexivity. Qed.

(** * The claims *)

Import Trace.

(** C1, as stated, fails: on Writes index 5, data 10, index 6, data 10 the
    second pair (reg_select 6) has [data_changed = false], although no value
    was ever recorded for register 6, so that the written value differs from
    the (absent) current value at that reg_select key. *)
Lemma data_changed_not_keyed_by_reg_select :
  ∃ p, p ∈ Scripty.pairs_0x0_0x4 (Scripty.analyze_log trace_same_data_two_indexes) ∧
       ¬ (Scripty.data_changed p = true ↔
          keyed_value_before trace_same_data_two_indexes
            (Scripty.p_index p) (Scripty.reg_select p) ≠ Some (Scripty.data_value p)).
Proof.
  exists (Scripty.mkPair 3 6 10 false). split.
  - replace (Scripty.pairs_0x0_0x4 (Scripty.analyze_log trace_same_data_two_indexes))
      with [Scripty.mkPair 1 5 10 true; Scripty.mkPair 3 6 10 false]
      by (vm_compute; reflexivity).
    apply list_elem_of_further, list_elem_of_here.
  - simpl. intros [_ H].
    assert (keyed_value_before trace_same_data_two_indexes 3 6 = None) as Hk
      by (vm_compute; reflexivity).
    rewrite Hk in H. by specialize (H ltac:(done)).
Qed.

(** C1 (amended): every PairRecord sits at a Write to the data offset 0x4,
    its reg_select is the last value written to the index offset 0x0 before
    it, and its data_changed field is true if and only if the written value
    differs from the last value written to the data offset 0x4 before it
    (absent before the first such Write): the comparison is keyed by the raw
    offset, whatever the reg_select. *)
Theorem pair_data_changed_per_data_offset (entries : list Entry) (p : Scripty.Pair) :
  p ∈ Scripty.pairs_0x0_0x4 (Scripty.analyze_log entries) →
  (∃ e, entries !! Scripty.p_index p = Some e ∧ op e = "Write" ∧ offset e = 4
        ∧ value e = Scripty.data_value p) ∧
  last_write_before entries (Scripty.p_index p) 0 = Some (Scripty.reg_select p) ∧
  (Scripty.data_changed p = true ↔
   last_write_before entries (Scripty.p_index p) 4 ≠ Some (Scripty.data_value p)).
Proof.
  intros Hp.
  rewrite (AnalyzeLogInv.inv_pairs _ _ (ScriptyFacts.analyze_log_Inv entries)) in Hp.
  apply TraceFacts.elem_of_collect in Hp as (i & e & He & Hpair).
  unfold pair_at, writes_to in Hpair.
  destruct (is_Write (op e)) eqn:Hw; [|done].
  case_bool_decide as Hoff; [|done]. simpl in Hpair.
  destruct (last_write_before entries i 0) as [r|] eqn:Hr; [|done].
  injection Hpair as <-. simpl. split_and!.
  - exists e. split_and!; try done. by apply String.eqb_eq.
  - done.
  - apply TableFacts.differs_true.
Qed.

(** The amended C1 at the second pair of the four-Write trace: its flag is
    false because 10 is the value that offset 0x4 already holds. *)
Lemma pair_data_changed_per_data_offset_witness :
  Scripty.mkPair 3 6 10 false
    ∈ Scripty.pairs_0x0_0x4 (Scripty.analyze_log trace_same_data_two_indexes) ∧
  (∃ e, trace_same_data_two_indexes !! 3%nat = Some e ∧ op e = "Write" ∧ offset e = 4
        ∧ value e = 10) ∧
  last_write_before trace_same_data_two_indexes 3 0 = Some 6 ∧
  (false = true ↔ last_write_before trace_same_data_two_indexes 3 4 ≠ Some 10).
Proof.
  assert (Scripty.mkPair 3 6 10 false
            ∈ Scripty.pairs_0x0_0x4 (Scripty.analyze_log trace_same_data_two_indexes))
    as Hin.
  { replace (Scripty.pairs_0x0_0x4 (Scripty.analyze_log trace_same_data_two_indexes))
      with [Scripty.mkPair 1 5 10 true; Scripty.mkPair 3 6 10 false]
      by (vm_compute; reflexivity).
    apply list_elem_of_further, list_elem_of_here. }
  split; [exact Hin|].
  exact (pair_data_changed_per_data_offset trace_same_data_two_indexes
           (Scripty.mkPair 3 6 10 false) Hin).
Defined.

(** C4, as stated for every key, fails for the indexed keys: the analyzer
    keeps change lists by raw offset only.  On Writes index 5, data 10,
    index 6, data 10 the event at position 3 is a Write of 10 to the indexed
    register 6, whose current value is absent, yet no change list holds a
    record of position 3: the Write falls under offset 0x4, which already
    holds 10. *)
Lemma no_change_record_for_indexed_write :
  write_at trace_same_data_two_indexes IndexedRegs 6 3 ∧
  keyed_value_before trace_same_data_two_indexes 3 6 = None ∧
  ∀ off c,
    c ∈ default [] (Scripty.all_changes
                      (Scripty.analyze_log trace_same_data_two_indexes) !! off) →
    Scripty.ch_index c ≠ 3%nat.
Proof.
  split_and!.
  - exists (mkEntry "Write" 4 10 4). split_and!; [done..|]. vm_compute. reflexivity.
  - vm_compute. reflexivity.
  - intros off c Hc Hidx.
    rewrite (AnalyzeLogInv.inv_changes _ _
               (ScriptyFacts.analyze_log_Inv trace_same_data_two_indexes)) in Hc.
    apply TraceFacts.elem_of_collect in Hc as (i & e & He & Hat).
    unfold change_at in Hat.
    destruct (writes_to off e
              && differs (last_write_before trace_same_data_two_indexes i off) (value e))
      eqn:Hwd; [|done].
    injection Hat as <-. simpl in Hidx. subst i.
    injection He as <-. unfold writes_to in Hwd. simpl in Hwd.
    case_bool_decide as Hoff; [|done]. subst off.
    by vm_compute in Hwd.
Qed.

(** C4 (amended): for every raw offset, the change list recorded for it
    holds exactly, in trace order, one record per Write to that offset whose
    value differs from the current value (the value of the last earlier
    Write to the offset, absent before the first); a Read adds none.  The
    indexed registers have no change list of their own: every Write to the
    data offset 0x4 falls under offset 0x4. *)
Theorem change_sequence_exact (entries : list Entry) (off : Z) :
  let changes := default [] (Scripty.all_changes (Scripty.analyze_log entries) !! off) in
  changes = collect (change_at entries off) entries ∧
  ∀ c, c ∈ changes ↔
       ∃ e, entries !! Scripty.ch_index c = Some e ∧ op e = "Write" ∧ offset e = off
            ∧ value e = Scripty.ch_new c
            ∧ Scripty.ch_old c = last_write_before entries (Scripty.ch_index c) off
            ∧ Scripty.ch_old c ≠ Some (Scripty.ch_new c).
Proof.
  simpl.
  rewrite (AnalyzeLogInv.inv_changes _ _ (ScriptyFacts.analyze_log_Inv entries)).
  split; [done|]. intros c. rewrite TraceFacts.elem_of_collect.
  unfold change_at, writes_to. split.
  - intros (i & e & He & Hc).
    destruct (is_Write (op e)) eqn:Hw; [|done].
    case_bool_decide as Hoff; [|done]. simpl in Hc.
    destruct (differs (last_write_before entries i off) (value e)) eqn:Hd; [|done].
    injection Hc as <-. simpl. exists e. split_and!; try done.
    + by apply String.eqb_eq.
    + by apply TableFacts.differs_true.
  - intros (e & He & Hop & Hoff & Hv & Hold & Hne).
    exists (Scripty.ch_index c), e. split; [done|].
    apply String.eqb_eq in Hop. unfold is_Write. rewrite Hop.
    rewrite bool_decide_eq_true_2 by done. simpl.
    rewrite <- Hold, Hv.
    apply TableFacts.differs_true in Hne. rewrite Hne. by destruct c.
Qed.

(** C5: on the Writes index 5, data 10, data 10, index 6, data 20 (whatever
    the access widths) the analyzer produces exactly three PairRecords, in
    order: (reg_select 5, data 10, changed), (reg_select 5, data 10,
    unchanged), (reg_select 6, data 20, changed). *)
Theorem pairing_scenario (n1 n2 n3 n4 n5 : Z) :
  Scripty.pairs_0x0_0x4
    (Scripty.analyze_log
       [mkEntry "Write" 0 5 n1; mkEntry "Write" 4 10 n2; mkEntry "Write" 4 10 n3;
        mkEntry "Write" 0 6 n4; mkEntry "Write" 4 20 n5]) =
  [Scripty.mkPair 1 5 10 true; Scripty.mkPair 2 5 10 false;
   Scripty.mkPair 4 6 20 true].
Proof.
  vm_compute. reflexivity.
Qed.

(** C8: the timeline has one entry per input event: as many entries as
    events, with sequence indexes 0, 1, 2, ... in this order, the entry at
    each position carrying the operation, offset and value of the event at
    that position. *)
Theorem timeline_one_entry_per_event (entries : list Entry) :
  let tl := Scripty.timeline (Scripty.analyze_log entries) in
  length tl = length entries ∧
  Scripty.tl_index <$> tl = seq 0 (length entries) ∧
  (λ t, (Scripty.tl_op t, Scripty.tl_offset t, Scripty.tl_value t)) <$> tl =
  (λ e, (op e, offset e, value e)) <$> entries.
Proof.
  simpl.
  rewrite (AnalyzeLogInv.inv_timeline _ _ (ScriptyFacts.analyze_log_Inv entries)).
  split_and!.
  - apply length_imap.
  - rewrite fmap_imap.
    rewrite (imap_ext _ (λ j _, id j)) by done.
    by rewrite imap_seq_0, list_fmap_id.
  - rewrite fmap_imap. by rewrite <- imap_const.
Qed.

(** C2: a DeviceControlledRecord for a register (of either scheme), with old
    value [v1], new value [v2] and line [j], is emitted if and only if [j]
    holds a Read of that register returning [v2], some earlier position [i]
    holds a Read of it returning [v1], [v1] differs from [v2], and no Read
    of and no Write to that register lies between [i] and [j]: the second
    Read is the next one after the first and no Write to the register
    separates them.  Accesses to other registers in between are not looked
    at. *)
Theorem device_controlled_iff_adjacent_reads
    (entries : list Entry) (s : Scheme) (k v1 v2 : Z) (j : nat) :
  Scripty2.mkDc k (Some v1) v2 j ∈ dc_records s entries ↔
  ∃ i, (i < j)%nat ∧ read_at entries s k i v1 ∧ read_at entries s k j v2 ∧ v1 ≠ v2 ∧
       ∀ m, (i < m < j)%nat →
            ¬ write_at entries s k m ∧ ∀ v, ¬ read_at entries s k m v.
Proof.
  rewrite Scripty2Facts.dc_records_table.
  rewrite (TableReplay.inv_dc _ _ (TableFacts.replay_TInv _)). simpl.
  setoid_rewrite Scripty2Facts.reads_actions. split.
  - intros (i & v & [= <-] & Hlt & Hr1 & Hr2 & Hne & Hno).
    exists i. split_and!; try done. intros m Hm. split.
    + intros Hw. eapply Hno; [done|]. apply Scripty2Facts.touches_actions. by left.
    + intros v Hv. eapply Hno; [done|]. apply Scripty2Facts.touches_actions.
      right. by exists v.
  - intros (i & Hlt & Hr1 & Hr2 & Hne & Hno).
    exists i, v1. split_and!; try done.
    intros m Hm [Hw|[v Hv]]%Scripty2Facts.touches_actions.
    + by apply (Hno m Hm).
    + by apply (proj2 (Hno m Hm) v).
Qed.

(** C3: a ReadBeforeWriteRecord for register [k] (of either scheme) exists
    if and only if [k] has a first Read and every Write to [k] comes after
    it, which covers the case of no Write to [k] at all; no two records of
    a list have the same key; and each record carries the line and the
    value of the first Read of its register. *)
Theorem read_before_write_iff_first_read
    (entries : list Entry) (s : Scheme) (k : Z) :
  let rbw := rbw_records s entries in
  ((∃ r, r ∈ rbw ∧ Scripty2.rbw_key r = k) ↔
   ∃ i v, read_at entries s k i v ∧
          (∀ m v', read_at entries s k m v' → (i ≤ m)%nat) ∧
          (∀ w, write_at entries s k w → (i < w)%nat)) ∧
  NoDup (Scripty2.rbw_key <$> rbw) ∧
  (∀ r, r ∈ rbw →
        read_at entries s (Scripty2.rbw_key r) (Scripty2.rbw_line r)
          (Scripty2.rbw_value r) ∧
        ∀ m v', read_at entries s (Scripty2.rbw_key r) m v' →
                (Scripty2.rbw_line r ≤ m)%nat).
Proof.
  simpl. rewrite Scripty2Facts.rbw_records_table.
  pose proof (TableReplay.inv_rbw _ _ (TableFacts.replay_TInv
                                        (TableReplay.actions s entries))) as HB.
  assert (∀ r, r ∈ Scripty2.read_before_write
                     (TableReplay.replay (TableReplay.actions s entries)) →
            read_at entries s (Scripty2.rbw_key r) (Scripty2.rbw_line r)
              (Scripty2.rbw_value r) ∧
            (∀ m v', read_at entries s (Scripty2.rbw_key r) m v' →
                     (Scripty2.rbw_line r ≤ m)%nat) ∧
            (∀ w, write_at entries s (Scripty2.rbw_key r) w →
                  (Scripty2.rbw_line r < w)%nat)) as Hfirst.
  { intros r [Hrd Hno]%HB. split; [by apply Scripty2Facts.reads_actions|]. split.
    - intros m v' Hm. destruct (decide (m < Scripty2.rbw_line r)%nat) as [Hlt|]; [|lia].
      exfalso. apply (Hno m Hlt). apply Scripty2Facts.touches_actions. right. by exists v'.
    - intros w Hw. destruct (decide (w < Scripty2.rbw_line r)%nat) as [Hlt|Hge].
      + exfalso. apply (Hno w Hlt). apply Scripty2Facts.touches_actions. by left.
      + destruct (decide (w = Scripty2.rbw_line r)) as [->|]; [|lia].
        exfalso. apply Scripty2Facts.writes_actions in Hw.
        by apply (TableFacts.reads_not_writes _ _ _ _ _ Hrd) in Hw. }
  split_and!.
  - split.
    + intros (r & Hr & <-). exists (Scripty2.rbw_line r), (Scripty2.rbw_value r).
      by apply Hfirst.
    + intros (i & v & Hrd & Hmin & Hw). exists (Scripty2.mkRbw k v i). split; [|done].
      apply HB. simpl. split; [by apply Scripty2Facts.reads_actions|].
      intros m Hm [Hw'|[v' Hv']]%Scripty2Facts.touches_actions.
      * apply Hw in Hw'. lia.
      * apply Hmin in Hv'. lia.
  - apply TableFacts.replay_rbw_keys.
  - intros r Hr. destruct (Hfirst r Hr) as (? & ? & ?). done.
Qed.

(** C6, as stated, fails: [analyze_registers] returns the records in the
    order of their first Reads; after Reads of 0xC and then 0x8 the direct
    list holds key 0xC before key 0x8. *)
Lemma rbw_list_returned_in_trace_order :
  rbw_records DirectRegs trace_two_direct_reads =
    [Scripty2.mkRbw 12 1 0; Scripty2.mkRbw 8 2 1] ∧
  ¬ Sorted Z.le (Scripty2.rbw_key <$> rbw_records DirectRegs trace_two_direct_reads).
Proof.
  assert (rbw_records DirectRegs trace_two_direct_reads =
            [Scripty2.mkRbw 12 1 0; Scripty2.mkRbw 8 2 1]) as Heq
    by (vm_compute; reflexivity).
  split; [done|]. rewrite Heq. simpl. intros Hs.
  apply Sorted_inv in Hs as [_ Hhd]. apply HdRel_inv in Hhd. lia.
Qed.

(** C6 (amended): each read-before-write list that the analyzer returns,
    indexed or direct, is in trace order (strictly ascending line); the
    report writer goes through [sorted(list, key)] of it, which holds the
    same records in strictly ascending order of key. *)
Theorem rbw_lists_sorted_when_reported (entries : list Entry) (s : Scheme) :
  let rbw := rbw_records s entries in
  StronglySorted lt (Scripty2.rbw_line <$> rbw) ∧
  Scripty2.sorted_by_key rbw ≡ₚ rbw ∧
  StronglySorted Z.lt (Scripty2.rbw_key <$> Scripty2.sorted_by_key rbw).
Proof.
  simpl. rewrite Scripty2Facts.rbw_records_table. split_and!.
  - apply TableFacts.replay_rbw_lines.
  - apply SortedFacts.sorted_by_key_perm.
  - apply SortedFacts.sorted_keys_strict.
    + eapply StronglySorted_fmap; [|apply SortedFacts.sorted_by_key_sorted]. done.
    + rewrite SortedFacts.sorted_by_key_perm. apply TableFacts.replay_rbw_keys.
Qed.

(** C10: after any prefix of the events, every entry of the indexed and of
    the direct state table whose write_since_read flag is false has a
    last_read value, and every DeviceControlledRecord emitted so far
    carries an old_value. *)
Theorem read_window_has_last_read (entries : list Entry) (n : nat) (s : Scheme) :
  map_Forall (λ _ st, Scripty2.write_since_read st = false →
                      is_Some (Scripty2.last_read st))
    (state_table s (take n entries)) ∧
  Forall (λ d, is_Some (Scripty2.old_value d)) (dc_records s (take n entries)).
Proof.
  rewrite Scripty2Facts.state_table_table, Scripty2Facts.dc_records_table.
  pose proof (TableFacts.replay_TInv (TableReplay.actions s (take n entries))) as HI.
  split.
  - intros k st Hk Hst.
    destruct (TableReplay.inv_after_read _ _ HI k st Hk Hst) as (i & v & _ & Hv & _).
    by rewrite Hv.
  - apply Forall_forall. intros d Hd.
    apply (TableReplay.inv_dc _ _ HI) in Hd as (i & v1 & Hv & _). by rewrite Hv.
Qed.

(** C9: on the empty event sequence both passes return empty results: no
    timeline entry, no change list, no pair, an empty current-state table,
    and four empty lists of read-before-write and device-controlled
    records. *)
Theorem empty_trace_empty_results :
  Scripty.timeline (Scripty.analyze_log []) = [] ∧
  Scripty.all_changes (Scripty.analyze_log []) = ∅ ∧
  Scripty.pairs_0x0_0x4 (Scripty.analyze_log []) = [] ∧
  Scripty.current_state (Scripty.analyze_log []) = ∅ ∧
  Scripty2.analyze_registers [] = ([], [], [], []).
Proof. by split_and!. Qed.



(** * Further properties of the code *)

(** ** [analyze_log]: the other results *)
Module AnalyzeLogMore.
Import Trace TraceFacts Scripty AnalyzeLogInv ChangeChain ScriptyFacts.

Lemma written_value_None l off :
  written_value l off = None ↔ ∀ e, e ∈ l → writes_to off e = false.
Proof.
  induction l as [|x l IH] using rev_ind.
  - split; [|done]. intros _ e He. by apply not_elem_of_nil in He.
  - rewrite written_value_snoc. destruct (writes_to off x) eqn:Hx.
    + split; [done|]. intros H. rewrite H in Hx; [done|].
      apply elem_of_app. right. by apply list_elem_of_singleton.
    + rewrite IH. split.
      * intros H e [He|He%list_elem_of_singleton]%elem_of_app; [by apply H|by subst].
      * intros H e He. apply H, elem_of_app. by left.
Qed.

Lemma writes_to_true off e :
  writes_to off e = true ↔ op e = "Write" ∧ offset e = off.
Proof.
  unfold writes_to. rewrite andb_true_iff, bool_decide_eq_true.
  unfold is_Write. by rewrite String.eqb_eq.
Qed.

Lemma Chain_step i e st off :
  (∀ o, is_Some (all_changes st !! o) ↔ is_Some (current_state st !! o)) →
  Chain st off → Chain (step i e st) off.
Proof.
  intros Hdom [Hlast Hfirst Hnext].
  pose proof (step_changes i e st off Hdom) as Hch.
  pose proof (step_current i e st off) as Hcur.
  destruct (writes_to off e) eqn:Hw; simpl in Hch.
  2: { rewrite app_nil_r in Hch. split; rewrite Hch, ?Hcur; done. }
  destruct (differs (current st off) (value e)) eqn:Hd; simpl in Hch.
  2: { rewrite app_nil_r in Hch. split; rewrite Hch, ?Hcur; try done.
       rewrite Hlast. destruct (current st off) as [y|]; [|done].
       simpl in Hd. apply negb_false_iff, Z.eqb_eq in Hd. by subst. }
  set (cs := default [] (all_changes st !! off)) in *.
  split; rewrite Hch, ?Hcur.
  - by rewrite last_snoc.
  - intros c Hc. destruct cs as [|c0 cs'] eqn:Hcs.
    + simpl in Hc. injection Hc as <-. simpl. by rewrite <- Hlast.
    + simpl in Hc. injection Hc as <-. by apply Hfirst.
  - intros k c c' Hc Hc'.
    apply lookup_snoc_Some in Hc' as [[Hlt Hc']|[Hk <-]].
    + rewrite lookup_app_l in Hc by lia. by apply (Hnext k).
    + rewrite lookup_app_l in Hc by lia. simpl. rewrite <- Hlast.
      rewrite last_lookup. replace (pred (length cs)) with k by lia.
      by rewrite Hc.
Qed.

Lemma analyze_log_Chain entries off : Chain (analyze_log entries) off.
Proof.
  induction entries as [|e l IH] using rev_ind.
  - split; simpl; by rewrite ?lookup_empty.
  - rewrite analyze_log_snoc. apply Chain_step; [|done].
    apply (inv_dom _ _ (analyze_log_Inv l)).
Qed.

Lemma changes_nonempty entries off :
  default [] (all_changes (analyze_log entries) !! off) ≠ [] ↔
  ∃ e, e ∈ entries ∧ op e = "Write" ∧ offset e = off.
Proof.
  pose proof (analyze_log_Inv entries) as HI.
  pose proof (chain_last _ _ (analyze_log_Chain entries off)) as Hlast.
  rewrite (inv_current _ _ HI) in Hlast.
  pose proof (written_value_None entries off) as Hnone.
  destruct (default [] (all_changes (analyze_log entries) !! off))
    as [|c cs] eqn:Hcs using rev_ind.
  - simpl in Hlast. split; [done|]. intros (e & He & Hw).
    apply writes_to_true in Hw.
    rewrite (proj1 Hnone) in Hw; done.
  - clear IHcs. rewrite last_snoc in Hlast. simpl in Hlast. split.
    + intros _. destruct (decide (Forall (λ e, writes_to off e = false) entries))
        as [Hall|Hex].
      * rewrite Forall_forall in Hall. apply Hnone in Hall. congruence.
      * apply not_Forall_Exists in Hex; [|solve_decision].
        apply Exists_exists in Hex as (e & He & Hw).
        exists e. split; [done|]. apply writes_to_true.
        by apply not_false_iff_true.
    + intros _. by destruct cs.
Qed.

Lemma omap_imap {A B C} (f : B → option C) (g : nat → A → B) (l : list A) :
  omap f (imap g l) = collect (λ i x, f (g i x)) l.
Proof.
  unfold collect. revert g. induction l as [|x l IH]; intros g; [done|].
  simpl. rewrite IH. by destruct (f (g 0%nat x)).
Qed.

End AnalyzeLogMore.

(** X1: the pair list holds, in trace order, one record for each Write to
    the data offset 0x4 that some Write to the index offset 0x0 precedes,
    and nothing else: data Writes before the first index Write give no
    pair, and every later one pairs with the last index value written. *)
Theorem pairs_exact (entries : list Entry) :
  Scripty.pairs_0x0_0x4 (Scripty.analyze_log entries) =
  collect (pair_at entries) entries.
Proof. apply (AnalyzeLogInv.inv_pairs _ _ (ScriptyFacts.analyze_log_Inv entries)). Qed.

(** X2: the current-state table has a key for exactly the offsets that
    occur in some event, whatever its operation; the value under a key is
    the value of the last Write to that offset, and [None] when the offset
    was only read. *)
Theorem current_state_exact (entries : list Entry) (off : Z) :
  (Scripty.current_state (Scripty.analyze_log entries) !! off = None ↔
   ∀ e, e ∈ entries → offset e ≠ off) ∧
  (∀ x, Scripty.current_state (Scripty.analyze_log entries) !! off = Some x ↔
        (∃ e, e ∈ entries ∧ offset e = off) ∧ x = written_value entries off).
Proof.
  pose proof (ScriptyFacts.analyze_log_Inv entries) as HI.
  pose proof (AnalyzeLogInv.inv_seen _ _ HI off) as Hseen.
  pose proof (AnalyzeLogInv.inv_current _ _ HI off) as Hcur.
  unfold AnalyzeLogInv.current in Hcur.
  destruct (Scripty.current_state (Scripty.analyze_log entries) !! off) as [x|] eqn:Hx.
  - simpl in Hcur. destruct (proj1 Hseen) as (e & He & Hoff); [done|]. split.
    + split; [done|]. intros H. by destruct (H e He).
    + intros y. split; [intros [= <-]; eauto|]. intros [_ ->]. by rewrite Hcur.
  - split.
    + split; [|done]. intros _ e He Hoff.
      destruct (proj2 Hseen) as [? ?]; [eauto|done].
    + intros y. split; [done|]. intros [Hex _].
      destruct (proj2 Hseen Hex) as [? ?]; done.
Qed.

(** X3: the change table has the keys of the current-state table, so that
    the [append] to [all_changes[offset]] never meets a missing key; and the
    change list of an offset is non-empty exactly when the trace has a Write
    to it (the first Write to an offset always counts as a change). *)
Theorem change_lists_keys (entries : list Entry) (off : Z) :
  (is_Some (Scripty.all_changes (Scripty.analyze_log entries) !! off) ↔
   is_Some (Scripty.current_state (Scripty.analyze_log entries) !! off)) ∧
  (default [] (Scripty.all_changes (Scripty.analyze_log entries) !! off) ≠ [] ↔
   ∃ e, e ∈ entries ∧ op e = "Write" ∧ offset e = off).
Proof.
  split.
  - apply (AnalyzeLogInv.inv_dom _ _ (ScriptyFacts.analyze_log_Inv entries)).
  - apply AnalyzeLogMore.changes_nonempty.
Qed.

(** X4: the change list of an offset is a chain: the first record has no
    old value, the old value of every later record is the new value of the
    record before it, so that consecutive new values differ, and the new
    value of the last record is the final current value of the offset. *)
Theorem change_list_chain (entries : list Entry) (off : Z) :
  let changes := default [] (Scripty.all_changes (Scripty.analyze_log entries) !! off) in
  (∀ c, changes !! 0%nat = Some c → Scripty.ch_old c = None) ∧
  (∀ k c c', changes !! k = Some c → changes !! S k = Some c' →
             Scripty.ch_old c' = Some (Scripty.ch_new c) ∧
             Scripty.ch_new c' ≠ Scripty.ch_new c) ∧
  Scripty.ch_new <$> last changes = written_value entries off.
Proof.
  simpl. destruct (AnalyzeLogMore.analyze_log_Chain entries off) as [Hlast Hfirst Hnext].
  split_and!; [done| |].
  - intros k c c' Hc Hc'. pose proof (Hnext k c c' Hc Hc') as Hold.
    split; [done|]. intros Heq.
    assert (c' ∈ default [] (Scripty.all_changes (Scripty.analyze_log entries) !! off))
      as Hin by (by eapply list_elem_of_lookup_2).
    rewrite (AnalyzeLogInv.inv_changes _ _ (ScriptyFacts.analyze_log_Inv entries)) in Hin.
    apply TraceFacts.elem_of_collect in Hin as (i & e & _ & Hat).
    unfold change_at in Hat.
    destruct (writes_to off e && differs (last_write_before entries i off) (value e))
      eqn:Hwd; [|done].
    injection Hat as <-. simpl in *.
    apply andb_true_iff in Hwd as [_ Hd]. rewrite Hold, Heq in Hd. simpl in Hd.
    by rewrite Z.eqb_refl in Hd.
  - rewrite Hlast. apply (AnalyzeLogInv.inv_current _ _ (ScriptyFacts.analyze_log_Inv entries)).
Qed.

(** X5: every timeline entry carries, besides its event, the value of the
    last earlier Write to its offset as old value, and is marked changed
    exactly when it is a Write whose value differs from that old value; a
    Read is never marked. *)
Theorem timeline_exact (entries : list Entry) :
  Scripty.timeline (Scripty.analyze_log entries) = imap (timeline_at entries) entries.
Proof. apply (AnalyzeLogInv.inv_timeline _ _ (ScriptyFacts.analyze_log_Inv entries)). Qed.

(** X6: the two views of the report agree: for every offset, the timeline
    entries of that offset that are marked changed give, with their index,
    old value and value, exactly the change list of the offset. *)
Theorem timeline_marks_are_changes (entries : list Entry) (off : Z) :
  omap (λ t, if Scripty.tl_changed t && bool_decide (Scripty.tl_offset t = off)
             then Some (Scripty.mkChange (Scripty.tl_index t) (Scripty.tl_old_value t)
                          (Scripty.tl_value t))
             else None)
    (Scripty.timeline (Scripty.analyze_log entries)) =
  default [] (Scripty.all_changes (Scripty.analyze_log entries) !! off).
Proof.
  pose proof (ScriptyFacts.analyze_log_Inv entries) as HI.
  rewrite (AnalyzeLogInv.inv_timeline _ _ HI), (AnalyzeLogInv.inv_changes _ _ HI).
  rewrite AnalyzeLogMore.omap_imap. apply TraceFacts.collect_ext.
  intros i e _. unfold timeline_at, change_at, writes_to. simpl.
  case_bool_decide as Hoff.
  - subst off. rewrite andb_true_r. by rewrite (andb_comm _ true).
  - rewrite !andb_false_r. done.
Qed.

(** ** The groupings of the report writers *)
Module ReportFacts.
Import Scripty Report.

Lemma reg_data_map_snoc pairs p :
  reg_data_map (pairs ++ [p]) = group_pair (reg_data_map pairs) p.
Proof. unfold reg_data_map. by rewrite fold_left_app. Qed.

(** The list under [reg] after one more pair. *)
Lemma group_pair_lookup m p reg :
  default [] (group_pair m p !! reg) =
  if decide (reg_select p = reg) then
    if decide (data_value p ∈ default [] (m !! reg)) then default [] (m !! reg)
    else default [] (m !! reg) ++ [data_value p]
  else default [] (m !! reg).
Proof.
  unfold group_pair.
  set (m1 := match m !! reg_select p with
             | Some _ => m
             | None => <[reg_select p := []]> m
             end).
  assert (∀ r, default [] (m1 !! r) = default [] (m !! r)) as Hm1.
  { intros r. unfold m1. destruct (m !! reg_select p) eqn:Hm; [done|].
    destruct (decide (reg_select p = r)) as [<-|].
    - by rewrite lookup_insert_eq, Hm.
    - by rewrite lookup_insert_ne. }
  assert (is_Some (m1 !! reg_select p)) as [l0 Hl0].
  { unfold m1. destruct (m !! reg_select p) eqn:Hm; [by rewrite Hm|].
    by rewrite lookup_insert_eq. }
  rewrite Hm1. destruct (decide (reg_select p = reg)) as [<-|Hne].
  - destruct (decide (data_value p ∈ default [] (m !! reg_select p))); [apply Hm1|].
    rewrite lookup_alter_eq, <- Hm1, Hl0. done.
  - destruct (decide (data_value p ∈ default [] (m !! reg_select p))); [apply Hm1|].
    rewrite lookup_alter_ne by done. apply Hm1.
Qed.

Lemma group_pair_is_Some m p reg :
  is_Some (group_pair m p !! reg) ↔ reg = reg_select p ∨ is_Some (m !! reg).
Proof.
  unfold group_pair.
  set (m1 := match m !! reg_select p with
             | Some _ => m
             | None => <[reg_select p := []]> m
             end).
  assert (is_Some (m1 !! reg) ↔ reg = reg_select p ∨ is_Some (m !! reg)) as Hm1.
  { unfold m1. destruct (m !! reg_select p) eqn:Hm.
    - split; [by right|]. intros [->|]; [by rewrite Hm|done].
    - rewrite lookup_insert_is_Some.
      destruct (decide (reg_select p = reg)); naive_solver. }
  destruct (decide (data_value p ∈ default [] (m1 !! reg_select p))); [done|].
  by rewrite lookup_alter_is_Some.
Qed.

Lemma reg_data_map_spec (pairs : list Scripty.Pair) (reg : Z) :
  (is_Some (Report.reg_data_map pairs !! reg) ↔
   ∃ p, p ∈ pairs ∧ Scripty.reg_select p = reg) ∧
  NoDup (default [] (Report.reg_data_map pairs !! reg)) ∧
  (∀ d, d ∈ default [] (Report.reg_data_map pairs !! reg) ↔
        ∃ p, p ∈ pairs ∧ Scripty.reg_select p = reg ∧ Scripty.data_value p = d).
Proof.
  induction pairs as [|p pairs (IH1 & IH2 & IH3)] using rev_ind.
  - unfold Report.reg_data_map. simpl. rewrite lookup_empty. split_and!.
    + split; [by intros [? ?]|]. intros (p & Hp & _). by apply not_elem_of_nil in Hp.
    + constructor.
    + intros d. simpl. split; [intros Hd; by apply not_elem_of_nil in Hd|].
      intros (p & Hp & _). by apply not_elem_of_nil in Hp.
  - rewrite reg_data_map_snoc. split_and!.
    + rewrite group_pair_is_Some, IH1. split.
      * intros [->|(q & Hq & <-)].
        -- exists p. split; [|done]. apply elem_of_app. right.
           by apply list_elem_of_singleton.
        -- exists q. split; [|done]. apply elem_of_app. by left.
      * intros (q & [Hq|Hq%list_elem_of_singleton]%elem_of_app & <-);
          [right; eauto|left; by subst].
    + rewrite group_pair_lookup.
      destruct (decide (Scripty.reg_select p = reg)); [|done].
      destruct (decide (Scripty.data_value p
                          ∈ default [] (Report.reg_data_map pairs !! reg))); [done|].
      apply NoDup_app. split_and!; [done| |apply NoDup_singleton].
      intros x Hx Hx'%list_elem_of_singleton. by subst.
    + intros d. rewrite group_pair_lookup.
      assert ((∃ q, q ∈ pairs ++ [p] ∧ Scripty.reg_select q = reg
                    ∧ Scripty.data_value q = d) ↔
              (∃ q, q ∈ pairs ∧ Scripty.reg_select q = reg ∧ Scripty.data_value q = d)
              ∨ (Scripty.reg_select p = reg ∧ Scripty.data_value p = d)) as ->.
      { split.
        - intros (q & [Hq|Hq%list_elem_of_singleton]%elem_of_app & Hr & Hd);
            [left; eauto|right; by subst].
        - intros [(q & Hq & Hr & Hd)|[Hr Hd]].
          + exists q. split; [|done]. apply elem_of_app. by left.
          + exists p. split; [|done]. apply elem_of_app. right.
            by apply list_elem_of_singleton. }
      rewrite <- IH3.
      destruct (decide (Scripty.reg_select p = reg)) as [Hr|Hr].
      * destruct (decide (Scripty.data_value p
                            ∈ default [] (Report.reg_data_map pairs !! reg))) as [Hin|Hin].
        -- split; [by left|]. intros [?|[_ <-]]; done.
        -- rewrite elem_of_app, list_elem_of_singleton. naive_solver.
      * naive_solver.
Qed.

End ReportFacts.

(** X7: the grouping of the report holds a key for exactly the register
    select values of the pairs; the list under a key has no value twice and
    holds exactly the data values of the pairs of that register select. *)
Theorem reg_data_map_exact (pairs : list Scripty.Pair) (reg : Z) :
  (is_Some (Report.reg_data_map pairs !! reg) ↔
   ∃ p, p ∈ pairs ∧ Scripty.reg_select p = reg) ∧
  NoDup (default [] (Report.reg_data_map pairs !! reg)) ∧
  (∀ d, d ∈ default [] (Report.reg_data_map pairs !! reg) ↔
        ∃ p, p ∈ pairs ∧ Scripty.reg_select p = reg ∧ Scripty.data_value p = d).
Proof. apply ReportFacts.reg_data_map_spec. Qed.

(** X8: [analyze_log] followed by the grouping of the report: the values
    listed for register select [r] are exactly the values of the Writes to
    the data offset 0x4 made while [r] was the last value written to the
    index offset 0x0. *)
Theorem reg_data_map_of_trace (entries : list Entry) (r d : Z) :
  d ∈ default [] (Report.reg_data_map
                    (Scripty.pairs_0x0_0x4 (Scripty.analyze_log entries)) !! r) ↔
  ∃ i e, entries !! i = Some e ∧ op e = "Write" ∧ offset e = 4 ∧ value e = d
         ∧ last_write_before entries i 0 = Some r.
Proof.
  destruct (ReportFacts.reg_data_map_spec (Scripty.pairs_0x0_0x4 (Scripty.analyze_log entries)) r)
    as (_ & _ & ->).
  rewrite (AnalyzeLogInv.inv_pairs _ _ (ScriptyFacts.analyze_log_Inv entries)).
  setoid_rewrite TraceFacts.elem_of_collect. unfold pair_at. split.
  - intros (p & (i & e & He & Hp) & Hr & Hd).
    destruct (writes_to 4 e) eqn:Hw; [|done].
    apply AnalyzeLogMore.writes_to_true in Hw as [Hop Hoff].
    destruct (last_write_before entries i 0) as [r'|] eqn:Hr'; [|done].
    injection Hp as <-. simpl in *. subst. exists i, e. by rewrite Hr'.
  - intros (i & e & He & Hop & Hoff & Hd & Hr).
    eexists. split.
    + exists i, e. split; [done|].
      rewrite (proj2 (AnalyzeLogMore.writes_to_true 4 e)) by done.
      by rewrite Hr.
    + done.
Qed.

Module Report2Facts.
Import Scripty2 Report2.

Lemma summarize_snoc cs c :
  summarize_device_controlled (cs ++ [c]) =
  summarize_step (summarize_device_controlled cs) c.
Proof. unfold summarize_device_controlled. by rewrite fold_left_app. Qed.

Lemma summarize_step_lookup m c k :
  summarize_step m c !! k =
  if decide (dc_key c = k) then
    Some (mkSummary (from_option changes [] (m !! k) ++ [c])
            ({[Some (new_value c)]} ∪
             ({[old_value c]} ∪ from_option unique_values ∅ (m !! k))))
  else m !! k.
Proof.
  unfold summarize_step. destruct (decide (dc_key c = k)) as [<-|Hne].
  - rewrite lookup_alter_eq. destruct (m !! dc_key c) eqn:Hm.
    + by rewrite Hm.
    + by rewrite lookup_insert_eq.
  - rewrite lookup_alter_ne by done.
    destruct (m !! dc_key c); [done|]. by rewrite lookup_insert_ne.
Qed.

Lemma summarize_spec (cs : list Scripty2.DcRecord) (k : Z) :
  (Report2.summarize_device_controlled cs !! k = None ↔
   ∀ c, c ∈ cs → Scripty2.dc_key c ≠ k) ∧
  (∀ s, Report2.summarize_device_controlled cs !! k = Some s →
        Report2.changes s = filter (λ c, Scripty2.dc_key c = k) cs ∧
        ∀ x, x ∈ Report2.unique_values s ↔
             ∃ c, c ∈ cs ∧ Scripty2.dc_key c = k ∧
                  (x = Scripty2.old_value c ∨ x = Some (Scripty2.new_value c))).
Proof.
  induction cs as [|c cs [IH1 IH2]] using rev_ind.
  - unfold Report2.summarize_device_controlled. simpl. rewrite lookup_empty. split.
    + split; [|done]. intros _ c Hc. by apply not_elem_of_nil in Hc.
    + done.
  - rewrite summarize_snoc, summarize_step_lookup.
    assert (∀ P : Scripty2.DcRecord → Prop,
              (∃ c', c' ∈ cs ++ [c] ∧ P c') ↔ (∃ c', c' ∈ cs ∧ P c') ∨ P c) as Hsnoc.
    { intros P. split.
      - intros (c' & [Hc|Hc%list_elem_of_singleton]%elem_of_app & HP);
          [left; eauto|right; by subst].
      - intros [(c' & Hc & HP)|HP].
        + exists c'. split; [|done]. apply elem_of_app. by left.
        + exists c. split; [|done]. apply elem_of_app. right.
          by apply list_elem_of_singleton. }
    destruct (decide (Scripty2.dc_key c = k)) as [Hk|Hk].
    + split.
      * split; [done|]. intros H. destruct (H c); [|done].
        apply elem_of_app. right. by apply list_elem_of_singleton.
      * intros s [= <-]. simpl. rewrite filter_app, filter_cons, filter_nil.
        rewrite decide_True by done.
        destruct (Report2.summarize_device_controlled cs !! k) as [s0|] eqn:Hs0; simpl.
        -- destruct (IH2 s0 eq_refl) as [Hch Hun]. split; [by rewrite Hch|].
           intros x. rewrite Hsnoc, !elem_of_union, !elem_of_singleton, Hun.
           naive_solver.
        -- assert (filter (λ c0, Scripty2.dc_key c0 = k) cs = []) as ->.
           { destruct (filter (λ c0, Scripty2.dc_key c0 = k) cs) as [|c' l'] eqn:Hf;
               [done|].
             assert (c' ∈ filter (λ c0, Scripty2.dc_key c0 = k) cs) as Hc'
               by (rewrite Hf; apply list_elem_of_here).
             apply list_elem_of_filter in Hc' as [Hk' Hc'].
             by destruct (proj1 IH1 eq_refl c' Hc'). }
           split; [done|]. intros x.
           rewrite Hsnoc, !elem_of_union, !elem_of_singleton. split.
           ++ intros [->|[->|Hx]]; [right; auto|right; auto|set_solver].
           ++ intros [(c' & Hc' & Hk' & _)|(_ & [->| ->])]; [|auto..].
              by destruct (proj1 IH1 eq_refl c' Hc').
    + rewrite filter_app, filter_cons, filter_nil, decide_False, app_nil_r by done.
      split.
      * rewrite IH1. split.
        -- intros H c' [Hc'|Hc'%list_elem_of_singleton]%elem_of_app;
             [by apply H|by subst].
        -- intros H c' Hc'. apply H, elem_of_app. by left.
      * intros s Hs. destruct (IH2 s Hs) as [Hch Hun]. split; [done|].
        intros x. rewrite Hun, Hsnoc. naive_solver.
Qed.

End Report2Facts.

(** X9: [summarize_device_controlled] has an entry for exactly the keys of
    its records; the entry of a key holds the records of that key in their
    original order, and its set of values holds exactly the old and the new
    values of these records. *)
Theorem summarize_exact (cs : list Scripty2.DcRecord) (k : Z) :
  (Report2.summarize_device_controlled cs !! k = None ↔
   ∀ c, c ∈ cs → Scripty2.dc_key c ≠ k) ∧
  (∀ s, Report2.summarize_device_controlled cs !! k = Some s →
        Report2.changes s = filter (λ c, Scripty2.dc_key c = k) cs ∧
        ∀ x, x ∈ Report2.unique_values s ↔
             ∃ c, c ∈ cs ∧ Scripty2.dc_key c = k ∧
                  (x = Scripty2.old_value c ∨ x = Some (Scripty2.new_value c))).
Proof. apply Report2Facts.summarize_spec. Qed.

(** ** [analyze_registers]: the device-controlled lists *)
Module Scripty2More.
Import Trace Scripty2 TableReplay TableFacts.

(** An iteration leaves the device-controlled list as it is or appends one
    record of the current line. *)
Lemma dc_apply_action i a t :
  device_controlled (apply_action i a t) = device_controlled t ∨
  ∃ k o v, device_controlled (apply_action i a t) =
           device_controlled t ++ [mkDc k o v i].
Proof.
  destruct a as [[k [v|]]|]; simpl; [|by left..].
  destruct (reg_state t !! k) as [s|]; [|by left].
  destruct (negb (write_since_read s) && differs (last_read s) v); [|by left].
  right. by exists k, (last_read s), v.
Qed.

Lemma replay_dc_lines acts :
  StronglySorted lt (dc_line <$> device_controlled (replay acts)).
Proof.
  induction acts as [|a acts IH] using rev_ind; [constructor|].
  rewrite replay_snoc.
  destruct (dc_apply_action (length acts) a (replay acts))
    as [->|(k & o & v & ->)]; [done|].
  rewrite fmap_app. apply StronglySorted_app_2; [|done|repeat constructor].
  intros x1 x2 (d & -> & Hd)%list_elem_of_fmap Hx2.
  apply list_elem_of_singleton in Hx2 as ->. simpl.
  apply (inv_dc _ _ (replay_TInv acts)) in Hd as (i & v1 & _ & _ & _ & Hr & _).
  by apply reads_lt in Hr.
Qed.

End Scripty2More.

(** X10: each device-controlled list that [analyze_registers] returns is
    in trace order, with at most one record per line; no line gives both a
    read-before-write record and a device-controlled record of the same
    addressing scheme; and the read-before-write record of a register
    precedes every device-controlled record of that register. *)
Theorem device_controlled_lines (entries : list Entry) (s : Scheme) :
  StronglySorted lt (Scripty2.dc_line <$> dc_records s entries) ∧
  (∀ r d, r ∈ rbw_records s entries → d ∈ dc_records s entries →
          Scripty2.rbw_line r ≠ Scripty2.dc_line d) ∧
  (∀ r d, r ∈ rbw_records s entries → d ∈ dc_records s entries →
          Scripty2.rbw_key r = Scripty2.dc_key d →
          (Scripty2.rbw_line r < Scripty2.dc_line d)%nat).
Proof.
  rewrite Scripty2Facts.dc_records_table, Scripty2Facts.rbw_records_table.
  split; [apply Scripty2More.replay_dc_lines|].
  pose proof (TableFacts.replay_TInv (TableReplay.actions s entries)) as HI.
  split.
  - intros r d Hr Hd Heq.
    apply (TableReplay.inv_rbw _ _ HI) in Hr as [Hrd Hno].
    apply (TableReplay.inv_dc _ _ HI) in Hd as (i & v1 & _ & Hlt & Hr1 & Hr2 & _).
    rewrite <- Heq in Hr2, Hlt.
    assert (Scripty2.rbw_key r = Scripty2.dc_key d) as Hk.
    { unfold TableReplay.reads in Hrd, Hr2. congruence. }
    apply (Hno i Hlt). rewrite Hk. by eapply TableFacts.reads_touches.
  - intros r d Hr Hd Hk.
    apply (TableReplay.inv_rbw _ _ HI) in Hr as [Hrd Hno].
    apply (TableReplay.inv_dc _ _ HI) in Hd as (i & v1 & _ & Hlt & Hr1 & _).
    destruct (decide (i < Scripty2.rbw_line r)%nat) as [Hi|Hi]; [|lia].
    exfalso. apply (Hno i Hi). rewrite Hk. by eapply TableFacts.reads_touches.
Qed.

(** X11: [summarize_device_controlled] on a list that [analyze_registers]
    returns: every entry of the summary has at least one record, its set of
    values holds no [None] and at least two values, so that the report can
    sort and print the values of every register it lists. *)
Theorem summary_of_analysis (entries : list Entry) (s : Scheme) :
  map_Forall (λ _ info,
      Report2.changes info ≠ [] ∧
      (None ∉ Report2.unique_values info) ∧
      2 ≤ size (Report2.unique_values info))%nat
    (Report2.summarize_device_controlled (dc_records s entries)).
Proof.
  intros k info Hinfo.
  destruct (Report2Facts.summarize_spec (dc_records s entries) k) as [Hnone Hsome].
  destruct (Hsome info Hinfo) as [Hch Hun].
  assert (∀ c, c ∈ dc_records s entries →
               ∃ v1, Scripty2.old_value c = Some v1 ∧ v1 ≠ Scripty2.new_value c) as Hrec.
  { intros c Hc. rewrite Scripty2Facts.dc_records_table in Hc.
    apply (TableReplay.inv_dc _ _ (TableFacts.replay_TInv _)) in Hc
      as (i & v1 & Hv1 & _ & _ & _ & Hne & _). eauto. }
  destruct (filter (λ c, Scripty2.dc_key c = k) (dc_records s entries))
    as [|c0 cs0] eqn:Hf.
  { exfalso. assert (Report2.summarize_device_controlled (dc_records s entries) !! k
                     = None) as Hn; [|congruence].
    apply Hnone. intros c Hc Hk.
    assert (c ∈ filter (λ c, Scripty2.dc_key c = k) (dc_records s entries)) as Hin
      by (by apply list_elem_of_filter).
    rewrite Hf in Hin. by apply not_elem_of_nil in Hin. }
  assert (c0 ∈ filter (λ c, Scripty2.dc_key c = k) (dc_records s entries)) as Hc0
    by (rewrite Hf; apply list_elem_of_here).
  apply list_elem_of_filter in Hc0 as [Hk0 Hc0].
  split_and!.
  - by rewrite Hch.
  - intros (c & Hc & _ & [Ho|Hn])%Hun; [|done].
    destruct (Hrec c Hc) as (v1 & Hv1 & _). congruence.
  - destruct (Hrec c0 Hc0) as (v1 & Hv1 & Hne).
    assert ({[Some v1; Some (Scripty2.new_value c0)]} ⊆ Report2.unique_values info)
      as Hsub.
    { intros x [->%elem_of_singleton| ->%elem_of_singleton]%elem_of_union;
        apply Hun; exists c0; split_and!; auto. }
    apply subseteq_size in Hsub. rewrite size_union in Hsub.
    + by rewrite !size_singleton in Hsub.
    + apply disjoint_singleton_l. rewrite elem_of_singleton. congruence.
Qed.

(** ** Strings: [strip], [split] and [int] on the rows of the filters *)
Module StringFacts.
Import ParseLog Filter FilterSpec.

Lemma append_cons c s t : String c s +:+ t = String c (s +:+ t).
Proof. done. Qed.

Lemma append_nil_l t : "" +:+ t = t.
Proof. done. Qed.

Lemma append_nil_r s : s +:+ "" = s.
Proof.
  induction s as [|c s IH]; [done|]. by rewrite append_cons, IH.
Qed.

Lemma append_assoc s1 s2 s3 : (s1 +:+ s2) +:+ s3 = s1 +:+ (s2 +:+ s3).
Proof.
  induction s1 as [|c s1 IH]; [done|]. by rewrite !append_cons, IH.
Qed.

Lemma rstrip_by_cons p c s :
  rstrip_by p (String c s) =
  match rstrip_by p s with
  | EmptyString => if p c then EmptyString else String c EmptyString
  | r => String c r
  end.
Proof. done. Qed.

Lemma rstrip_by_cons_keep p c s :
  p c = false → rstrip_by p (String c s) = String c (rstrip_by p s).
Proof. intros Hc. rewrite rstrip_by_cons, Hc. by destruct (rstrip_by p s). Qed.

Lemma rstrip_by_head p s a r :
  rstrip_by p s = String a r → ∃ s', s = String a s'.
Proof.
  destruct s as [|c s]; [done|]. rewrite rstrip_by_cons.
  destruct (rstrip_by p s); [destruct (p c)|]; naive_solver.
Qed.

Lemma rstrip_by_idemp p s : rstrip_by p (rstrip_by p s) = rstrip_by p s.
Proof.
  induction s as [|c s IH]; [done|]. rewrite rstrip_by_cons.
  destruct (rstrip_by p s) as [|a r] eqn:Hr.
  - destruct (p c) eqn:Hc; [done|]. by rewrite rstrip_by_cons, Hc.
  - by rewrite rstrip_by_cons, IH.
Qed.

Lemma rstrip_by_all p s : all_chars (λ c, negb (p c)) s = true → rstrip_by p s = s.
Proof.
  induction s as [|c s IH]; [done|]. intros H. simpl in H.
  apply andb_true_iff in H as [Hc Hs]. apply negb_true_iff in Hc.
  by rewrite rstrip_by_cons_keep, IH.
Qed.

Lemma split_cons_space c s : is_space c = true → split (String c s) = split s.
Proof. intros Hc. simpl. by rewrite Hc. Qed.

Lemma split_rstrip s : split (rstrip_by is_space s) = split s.
Proof.
  induction s as [|c s IH]; [done|].
  destruct (is_space c) eqn:Hc.
  - rewrite split_cons_space by done. rewrite rstrip_by_cons, Hc.
    destruct (rstrip_by is_space s) as [|a r] eqn:Hr; [done|].
    by rewrite split_cons_space.
  - rewrite rstrip_by_cons_keep by done.
    destruct (rstrip_by is_space s) as [|a r] eqn:Hr.
    + simpl. rewrite Hc. destruct s as [|c' s']; [done|].
      destruct (is_space c') eqn:Hc'.
      * by rewrite <- IH.
      * rewrite rstrip_by_cons_keep in Hr; done.
    + destruct (rstrip_by_head _ _ _ _ Hr) as (s' & ->).
      simpl. rewrite Hc. simpl in IH. by rewrite IH.
Qed.

Lemma word_cons c w :
  word (String c w) = true ↔ is_space c = false ∧ (w = "" ∨ word w = true).
Proof.
  unfold word, run_of. simpl. rewrite andb_true_iff, negb_true_iff.
  destruct w as [|c' w']; simpl; naive_solver.
Qed.

Lemma split_word_space w c rest :
  word w = true → is_space c = true →
  split (w +:+ String c rest) = w :: split rest.
Proof.
  intros Hw Hc. induction w as [|a w IH]; [done|].
  apply word_cons in Hw as [Ha Hw]. destruct w as [|a' w'].
  - rewrite append_cons, append_nil_l. simpl. by rewrite Ha, Hc.
  - destruct Hw as [|Hw]; [done|].
    pose proof Hw as [Ha' _]%word_cons.
    specialize (IH Hw). rewrite append_cons in IH |- *.
    rewrite append_cons.
    simpl. rewrite Ha, Ha'. simpl in IH. rewrite Ha' in IH.
    by rewrite IH.
Qed.

Lemma split_pad n rest : split (pad n +:+ rest) = split rest.
Proof.
  induction n as [|n IH]; [done|].
  simpl pad. rewrite append_cons. by rewrite split_cons_space.
Qed.

Lemma rstrip_append_space s :
  rstrip_by is_space (s +:+ " ") = rstrip_by is_space s.
Proof.
  induction s as [|a s IH]; [done|].
  by rewrite append_cons, !rstrip_by_cons, IH.
Qed.

Lemma split_word w : word w = true → split w = [w].
Proof.
  intros Hw. rewrite <- split_rstrip, <- rstrip_append_space, split_rstrip.
  by rewrite (split_word_space w " " ""%string Hw).
Qed.

Lemma all_chars_append p s t :
  all_chars p (s +:+ t) = all_chars p s && all_chars p t.
Proof.
  induction s as [|c s IH]; [done|].
  rewrite append_cons. simpl. by rewrite IH, andb_assoc.
Qed.

Lemma all_chars_impl (p q : ascii → bool) s :
  (∀ c, p c = true → q c = true) → all_chars p s = true → all_chars q s = true.
Proof.
  intros Hpq. induction s as [|c s IH]; [done|]. simpl.
  intros [Hc Hs]%andb_true_iff. by rewrite (Hpq c Hc), IH.
Qed.

Lemma all_chars_pad p n : p " "%char = true → all_chars p (pad n) = true.
Proof. intros Hp. induction n as [|n IH]; [done|]. simpl. by rewrite Hp, IH. Qed.

Lemma lower_hex_not_space c : is_lower_hex c = true → is_space c = false.
Proof. unfold is_lower_hex, is_space. lia. Qed.

Lemma lower_hex_not_int_space c : is_lower_hex c = true → is_int_space c = false.
Proof. unfold is_lower_hex, is_int_space. lia. Qed.

Lemma decimal_lower_hex c : is_decimal c = true → is_lower_hex c = true.
Proof. unfold is_decimal, is_lower_hex. lia. Qed.

Lemma lower_hex_digit c :
  is_lower_hex c = true → ∃ d, hex_digit c = Some d.
Proof.
  unfold is_lower_hex, hex_digit. intros H.
  destruct ((48 <=? code c) && (code c <=? 57)); [eauto|].
  destruct ((97 <=? code c) && (code c <=? 102)); [eauto|done].
Qed.

Lemma lower_hex_not_underscore c :
  is_lower_hex c = true → Ascii.eqb c "_"%char = false.
Proof.
  intros H. destruct (Ascii.eqb_spec c "_"%char) as [->|]; [|done].
  by vm_compute in H.
Qed.

Lemma digits16_lower_hex ds acc :
  all_chars is_lower_hex ds = true →
  digits16 ds false acc = Some (digits_value acc ds).
Proof.
  revert acc. induction ds as [|c ds IH]; intros acc H; [done|].
  simpl in H. apply andb_true_iff in H as [Hc Hds].
  simpl. rewrite (lower_hex_not_underscore c Hc).
  destruct (lower_hex_digit c Hc) as [d Hd]. rewrite Hd. simpl. by apply IH.
Qed.

Lemma unprefixed16_literal ds :
  run_of is_lower_hex ds = true →
  unprefixed16 (String "0"%char (String "x"%char ds)) = ds.
Proof.
  unfold run_of. destruct ds as [|c ds]; [done|]. simpl.
  intros [Hc _]%andb_true_iff.
  destruct c as [[] [] [] [] [] [] [] []]; try done; by vm_compute in Hc.
Qed.

Lemma hex_literal_inv s :
  hex_literal s = true →
  ∃ ds, s = String "0"%char (String "x"%char ds) ∧ run_of is_lower_hex ds = true.
Proof.
  destruct s as [|a [|b ds]]; try done.
  - destruct a as [[] [] [] [] [] [] [] []]; done.
  - destruct a as [[] [] [] [] [] [] [] []]; try done;
      destruct b as [[] [] [] [] [] [] [] []]; try done. eauto.
Qed.

(** [int] reads a literal of the shape of the groups as the number it
    writes. *)
Lemma int16_hex_literal s :
  hex_literal s = true → int16 s = Some (literal_value s).
Proof.
  intros (ds & -> & Hds)%hex_literal_inv. unfold int16.
  pose proof Hds as [Hne Hall]%andb_true_iff.
  assert (rstrip_by is_int_space (String "0"%char (String "x"%char ds)) =
          String "0"%char (String "x"%char ds)) as ->.
  { rewrite !rstrip_by_cons_keep by done. do 2 f_equal. apply rstrip_by_all.
    eapply all_chars_impl; [|done]. intros c Hc.
    by rewrite (lower_hex_not_int_space c Hc). }
  change (lstrip_by is_int_space (String "0"%char (String "x"%char ds)))
    with (String "0"%char (String "x"%char ds)).
  change (body16 (unprefixed16 (String "0"%char (String "x"%char ds))) =
          Some (digits_value 0 ds)).
  rewrite unprefixed16_literal by done. unfold body16.
  destruct ds as [|c ds]; [done|].
  simpl in Hall. pose proof Hall as [Hc _]%andb_true_iff.
  rewrite (lower_hex_not_underscore c Hc). by apply digits16_lower_hex.
Qed.

Lemma hex_literal_word s : hex_literal s = true → word s = true.
Proof.
  intros (ds & -> & [Hne Hall]%andb_true_iff)%hex_literal_inv.
  unfold word, run_of. simpl.
  change (all_chars (λ c, negb (is_space c)) ds = true).
  eapply all_chars_impl; [|done]. intros c Hc.
  by rewrite (lower_hex_not_space c Hc).
Qed.

Lemma hex_literal_of_decimal g :
  run_of is_decimal g = true → hex_literal ("0x" +:+ g) = true.
Proof.
  intros [Hne Hall]%andb_true_iff.
  change (run_of is_lower_hex g = true). unfold run_of. rewrite Hne. simpl.
  eapply all_chars_impl; [|done]. apply decimal_lower_hex.
Qed.

(** The fields of a row. *)
Lemma split_field w k rest :
  word w = true → split (w +:+ pad k +:+ " " +:+ rest) = w :: split rest.
Proof.
  intros Hw. change (" " +:+ rest) with (String " "%char rest).
  destruct k as [|k].
  - by rewrite append_nil_l, split_word_space.
  - simpl pad. rewrite append_cons, split_word_space by done.
    by rewrite split_pad, split_cons_space.
Qed.

Lemma split_last_field w k : word w = true → split (w +:+ pad k) = [w].
Proof.
  intros Hw. destruct k as [|k].
  - simpl pad. rewrite append_nil_r. by apply split_word.
  - simpl pad. rewrite split_word_space by done.
    rewrite <- (append_nil_r (pad k)). by rewrite split_pad.
Qed.

Lemma split_format_row op o v l :
  word op = true → word o = true → word v = true → word l = true →
  split (format_row op o v l) = [op; o; v; l].
Proof.
  intros Hop Ho Hv Hl. unfold format_row, ljust.
  rewrite !append_assoc.
  rewrite !split_field by done. by rewrite split_last_field.
Qed.

End StringFacts.

(** ** [parse_log] on the text that the filters write *)
Module FilterFacts.
Import ParseLog LineByLine Filter FilterSpec StringFacts.

Lemma strip_cons_keep c s :
  is_space c = false → strip (String c s) = String c (rstrip_by is_space s).
Proof.
  intros Hc. unfold strip. rewrite rstrip_by_cons_keep by done. simpl. by rewrite Hc.
Qed.

Lemma parse_line_row acc op o v l rest :
  (op = "Read" ∨ op = "Write") →
  hex_literal o = true → hex_literal v = true → hex_literal l = true →
  rstrip_by is_space rest = rstrip_by is_space (format_row op o v l) →
  parse_line acc rest =
  acc ++ [mkEntry op (literal_value o) (literal_value v) (literal_value l)].
Proof.
  intros Hop Ho Hv Hl Hrest.
  assert (word op = true) as Hwop by (by destruct Hop as [-> | ->]).
  assert (∃ c tl, (c = "R"%char ∨ c = "W"%char) ∧ rest = String c tl)
    as (c & tl & Hc & ->).
  { destruct Hop as [-> | ->].
    - assert (∃ tl, rstrip_by is_space rest = String "R"%char tl) as [tl Htl].
      { rewrite Hrest. unfold format_row, ljust. rewrite !append_assoc.
        change ("Read" +:+ ?x) with (String "R"%char ("ead" +:+ x)).
        rewrite rstrip_by_cons_keep by done. eauto. }
      destruct (rstrip_by_head _ _ _ _ Htl) as (tl' & ->). eauto.
    - assert (∃ tl, rstrip_by is_space rest = String "W"%char tl) as [tl Htl].
      { rewrite Hrest. unfold format_row, ljust. rewrite !append_assoc.
        change ("Write" +:+ ?x) with (String "W"%char ("rite" +:+ x)).
        rewrite rstrip_by_cons_keep by done. eauto. }
      destruct (rstrip_by_head _ _ _ _ Htl) as (tl' & ->). eauto. }
  assert (String.prefix "Operation" (String c tl) = false) as Hq1
    by (by destruct Hc as [-> | ->]).
  assert (String.prefix "----" (String c tl) = false) as Hq2
    by (by destruct Hc as [-> | ->]).
  assert (is_space c = false) as Hsp by (by destruct Hc as [-> | ->]).
  unfold parse_line. rewrite Hq1, Hq2, strip_cons_keep by done. simpl orb.
  rewrite <- split_rstrip, Hrest, split_rstrip.
  rewrite split_format_row by auto using hex_literal_word.
  by rewrite !int16_hex_literal.
Qed.

(** Trailing whitespace of a line is immaterial. *)
Lemma prefix_rstrip p l :
  all_chars (λ c, negb (is_space c)) p = true →
  String.prefix p (rstrip_by is_space l) = String.prefix p l.
Proof.
  revert p. induction l as [|c l IH]; intros p Hp; [done|].
  destruct p as [|a p]; [by destruct (rstrip_by is_space (String c l))|].
  simpl in Hp. apply andb_true_iff in Hp as [Ha Hp]. apply negb_true_iff in Ha.
  rewrite rstrip_by_cons. specialize (IH p Hp).
  destruct (rstrip_by is_space l) as [|b r] eqn:Hr.
  - destruct (is_space c) eqn:Hc; simpl.
    + destruct (ascii_dec a c) as [->|]; [congruence|done].
    + destruct (ascii_dec a c); [|done]. by rewrite <- IH.
  - simpl. destruct (ascii_dec a c); [|done]. by rewrite <- IH.
Qed.

Lemma parse_line_rstrip acc l :
  parse_line acc (rstrip_by is_space l) = parse_line acc l.
Proof.
  unfold parse_line, strip.
  by rewrite !prefix_rstrip, rstrip_by_idemp, split_rstrip.
Qed.

Lemma line_entry_rstrip l : line_entry (rstrip_by is_space l) = line_entry l.
Proof. unfold line_entry. by rewrite parse_line_rstrip. Qed.

Lemma line_entry_same_rstrip l l' :
  rstrip_by is_space l = rstrip_by is_space l' → line_entry l = line_entry l'.
Proof. intros H. by rewrite <- line_entry_rstrip, H, line_entry_rstrip. Qed.

Lemma split_on_cons sep c s :
  split_on sep (String c s) =
  if Ascii.eqb c sep then EmptyString :: split_on sep s
  else match split_on sep s with
       | h :: t => String c h :: t
       | [] => [String c EmptyString]
       end.
Proof. done. Qed.

Lemma split_on_not_nil sep s : ∃ h t, split_on sep s = h :: t.
Proof.
  induction s as [|c s (h & t & IH)]; [by eexists _, _|].
  rewrite split_on_cons, IH. destruct (Ascii.eqb c sep); by eexists _, _.
Qed.

Lemma split_on_append sep a b :
  split_on sep (a +:+ String sep b) = split_on sep a ++ split_on sep b.
Proof.
  induction a as [|c a IH].
  - rewrite append_nil_l, split_on_cons, Ascii.eqb_refl. done.
  - rewrite append_cons, !split_on_cons, IH.
    destruct (Ascii.eqb c sep); [done|].
    destruct (split_on_not_nil sep a) as (h & t & ->). done.
Qed.

Lemma split_on_none sep s :
  all_chars (λ c, negb (Ascii.eqb c sep)) s = true → split_on sep s = [s].
Proof.
  induction s as [|c s IH]; [done|]. intros H. simpl in H.
  apply andb_true_iff in H as [Hc Hs]. apply negb_true_iff in Hc.
  by rewrite split_on_cons, Hc, IH.
Qed.

Lemma entries_of_lines_rstrip t :
  entries_of_lines (rstrip_by is_space t) = entries_of_lines t.
Proof.
  unfold entries_of_lines.
  assert (∃ h tl h' tl',
            split_on newline t = h :: tl ∧
            split_on newline (rstrip_by is_space t) = h' :: tl' ∧
            rstrip_by is_space h' = rstrip_by is_space h ∧
            omap line_entry tl' = omap line_entry tl)
    as (h & tl & h' & tl' & -> & -> & Hh & Htl).
  2: { csimpl. by rewrite Htl, (line_entry_same_rstrip h' h Hh). }
  induction t as [|c t (h0 & tl0 & h0' & tl0' & Ht & Ht' & Hh & Htl)].
  { by exists "", [], "", []. }
  rewrite rstrip_by_cons, split_on_cons, Ht.
  destruct (rstrip_by is_space t) as [|b r] eqn:Hr.
  - (* nothing but whitespace follows *)
    simpl in Ht'. injection Ht' as <- <-.
    assert (line_entry h0 = None) as Hblank
      by (by rewrite (line_entry_same_rstrip h0 "" (eq_sym Hh))).
    destruct (is_space c) eqn:Hc.
    + destruct (Ascii.eqb c newline) eqn:Hnl.
      * exists "", (h0 :: tl0), "", []. split_and!; try done.
        csimpl. by rewrite Hblank, <- Htl.
      * exists (String c h0), tl0, "", []. split_and!; try done.
        by rewrite rstrip_by_cons, <- Hh, Hc.
    + assert (Ascii.eqb c newline = false) as Hnl.
      { destruct (Ascii.eqb_spec c newline) as [->|]; [done|done]. }
      rewrite Hnl. exists (String c h0), tl0, (String c ""), [].
      split_and!; [done|by rewrite split_on_cons, Hnl| |done].
      by rewrite !rstrip_by_cons, <- Hh.
  - rewrite split_on_cons, Ht'. destruct (Ascii.eqb c newline).
    + exists "", (h0 :: tl0), "", (h0' :: tl0'). split_and!; try done.
      csimpl. by rewrite Htl, (line_entry_same_rstrip h0' h0 Hh).
    + exists (String c h0), tl0, (String c h0'), tl0'. split_and!; try done.
      by rewrite !rstrip_by_cons, Hh.
Qed.

Lemma lstrip_by_fixed_rstrip t :
  lstrip_by is_space t = t →
  lstrip_by is_space (rstrip_by is_space t) = rstrip_by is_space t.
Proof.
  destruct t as [|c t]; [done|]. intros H.
  assert (is_space c = false) as Hc.
  { simpl in H. destruct (is_space c) eqn:Hc; [|done].
    exfalso. assert (String.length (lstrip_by is_space t) ≤ String.length t)%nat as Hle.
    { clear. induction t as [|a t IH]; simpl; [done|].
      destruct (is_space a); simpl; lia. }
    rewrite H in Hle. simpl in Hle. lia. }
  rewrite rstrip_by_cons_keep by done. simpl. by rewrite Hc.
Qed.

(** For a text that does not begin with whitespace, [parse_log] reads the
    lines as they are. *)
Lemma parse_log_lines t :
  lstrip_by is_space t = t → parse_log t = entries_of_lines t.
Proof.
  intros Ht. unfold parse_log. rewrite ParseLogFacts.fold_parse_line. simpl.
  unfold strip. rewrite lstrip_by_fixed_rstrip by done.
  apply entries_of_lines_rstrip.
Qed.

Lemma entries_of_lines_append a b :
  entries_of_lines (a +:+ String newline b) =
  entries_of_lines a ++ entries_of_lines b.
Proof. unfold entries_of_lines. by rewrite split_on_append, omap_app. Qed.

Lemma row_no_newline op o v l :
  word op = true → word o = true → word v = true → word l = true →
  all_chars (λ c, negb (Ascii.eqb c newline)) (format_row op o v l) = true.
Proof.
  assert (∀ w, word w = true →
               all_chars (λ c, negb (Ascii.eqb c newline)) w = true) as Hw.
  { intros w [_ Hw]%andb_true_iff. eapply all_chars_impl; [|done].
    intros c Hc. destruct (Ascii.eqb_spec c newline) as [->|]; done. }
  intros Hop Ho Hv Hl. unfold format_row, ljust.
  rewrite !all_chars_append, !all_chars_pad by done.
  rewrite (Hw op), (Hw o), (Hw v), (Hw l) by done. reflexivity.
Qed.

Lemma row_of_entries r e : row_of r e → entries_of_lines r = [e].
Proof.
  intros (op & o & v & l & -> & Hop & Ho & Hv & Hl & ->).
  unfold entries_of_lines. rewrite split_on_none.
  2: { apply row_no_newline; auto using hex_literal_word.
       by destruct Hop as [-> | ->]. }
  csimpl. unfold line_entry.
  by rewrite (parse_line_row [] op o v l (format_row op o v l)).
Qed.

Lemma row_of_lstrip r e : row_of r e → lstrip_by is_space r = r.
Proof.
  intros (op & o & v & l & -> & Hop & _). unfold format_row, ljust.
  rewrite !append_assoc. by destruct Hop as [-> | ->].
Qed.

Lemma nl_append x : nl +:+ x = String newline x.
Proof. done. Qed.

Lemma fold_write_row {A} (f : A → option string) (l : list A) out :
  fold_left (λ out x, write_row out (f x)) l out = out +:+ rows_text (f <$> l).
Proof.
  revert out. induction l as [|x l IH]; intros out; csimpl.
  - by rewrite append_nil_r.
  - rewrite IH. destruct (f x) as [r|]; simpl; [|done].
    by rewrite !append_assoc.
Qed.

Lemma rows_text_entries {A} (f : A → option string) (g : A → option Entry) l :
  (∀ x, match f x, g x with
        | Some r, Some e => row_of r e
        | None, None => True
        | _, _ => False
        end) →
  entries_of_lines (rows_text (f <$> l)) = omap g l.
Proof.
  intros Hfg. induction l as [|x l IH]; [done|]. csimpl.
  specialize (Hfg x). destruct (f x) as [r|], (g x) as [e|]; try done.
  rewrite nl_append, entries_of_lines_append, IH.
  by rewrite (row_of_entries r e).
Qed.

Lemma header_text : header_line = "Operation Offset     Value      Length  ".
Proof. vm_compute. reflexivity. Qed.

(** [parse_log] on the text of a header, a rule and rows. *)
Lemma parse_log_file {A} (f : A → option string) (g : A → option Entry) l :
  (∀ x, match f x, g x with
        | Some r, Some e => row_of r e
        | None, None => True
        | _, _ => False
        end) →
  parse_log (fold_left (λ out x, write_row out (f x)) l
               (header_line +:+ nl +:+ rule_line +:+ nl)) = omap g l.
Proof.
  intros Hfg. rewrite fold_write_row, !append_assoc, !nl_append.
  rewrite parse_log_lines by (by rewrite header_text).
  rewrite !entries_of_lines_append, (rows_text_entries f g l Hfg).
  assert (entries_of_lines header_line = []) as -> by (vm_compute; reflexivity).
  assert (entries_of_lines rule_line = []) as -> by (vm_compute; reflexivity).
  done.
Qed.

End FilterFacts.

Module ParseLogMore.
Import ParseLog LineByLine Filter FilterSpec StringFacts FilterFacts.

Lemma lstrip_fixed_head c t :
  lstrip_by is_space (String c t) = String c t → is_space c = false.
Proof.
  intros H. simpl in H. destruct (is_space c) eqn:Hc; [|done].
  exfalso. assert (String.length (lstrip_by is_space t) ≤ String.length t)%nat as Hle.
  { clear. induction t as [|a t IH]; simpl; [done|].
    destruct (is_space a); simpl; lia. }
  rewrite H in Hle. simpl in Hle. lia.
Qed.

Lemma strip_newline_cons b : strip (String newline b) = strip b.
Proof.
  unfold strip. rewrite rstrip_by_cons.
  destruct (rstrip_by is_space b) as [|c r]; done.
Qed.

Lemma parse_log_join a b :
  lstrip_by is_space a = a → lstrip_by is_space b = b →
  parse_log (a +:+ nl +:+ b) = parse_log a ++ parse_log b.
Proof.
  intros Ha Hb. rewrite nl_append. destruct a as [|c a].
  - rewrite append_nil_l. unfold parse_log. by rewrite strip_newline_cons.
  - pose proof (lstrip_fixed_head c a Ha) as Hc.
    rewrite (parse_log_lines (String c a)), (parse_log_lines b) by done.
    rewrite <- entries_of_lines_append. apply parse_log_lines.
    rewrite append_cons. simpl. by rewrite Hc.
Qed.

End ParseLogMore.

(** X12: [parse_log] works line by line: the entries of two texts joined
    by a newline are the entries of the first followed by the entries of the
    second, provided neither text begins with whitespace (each is empty or
    begins with another character). *)
Theorem parse_log_of_joined_texts (a b : string) :
  ParseLog.lstrip_by ParseLog.is_space a = a →
  ParseLog.lstrip_by ParseLog.is_space b = b →
  ParseLog.parse_log (a +:+ Filter.nl +:+ b) =
  ParseLog.parse_log a ++ ParseLog.parse_log b.
Proof. apply ParseLogMore.parse_log_join. Qed.

(** X12 on two one-line texts. *)
Lemma parse_log_of_joined_texts_witness :
  ParseLog.lstrip_by ParseLog.is_space "Read 0x8 0x1 0x4" = "Read 0x8 0x1 0x4" ∧
  ParseLog.lstrip_by ParseLog.is_space "Write 0x0 0x5 0x4" = "Write 0x0 0x5 0x4" ∧
  ParseLog.parse_log ("Read 0x8 0x1 0x4" +:+ Filter.nl +:+ "Write 0x0 0x5 0x4") =
  ParseLog.parse_log "Read 0x8 0x1 0x4" ++ ParseLog.parse_log "Write 0x0 0x5 0x4".
Proof.
  split; [reflexivity|]. split; [reflexivity|].
  apply (parse_log_of_joined_texts "Read 0x8 0x1 0x4" "Write 0x0 0x5 0x4");
    reflexivity.
Defined.

(** X13: a row that the filters write, [Read] or [Write] with three fields
    of the shape [0x[0-9a-f]+], is read back by [parse_log] as one entry:
    the same operation and the numbers that the three fields write. *)
Theorem parse_log_of_row (op o v l : string) :
  op = "Read" ∨ op = "Write" →
  Filter.hex_literal o = true → Filter.hex_literal v = true →
  Filter.hex_literal l = true →
  ParseLog.parse_log (Filter.format_row op o v l) =
  [mkEntry op (Filter.literal_value o) (Filter.literal_value v)
     (Filter.literal_value l)].
Proof.
  intros Hop Ho Hv Hl.
  assert (FilterSpec.row_of (Filter.format_row op o v l)
            (mkEntry op (Filter.literal_value o) (Filter.literal_value v)
               (Filter.literal_value l))) as Hrow
    by (by exists op, o, v, l).
  rewrite FilterFacts.parse_log_lines by (by eapply FilterFacts.row_of_lstrip).
  by apply FilterFacts.row_of_entries.
Qed.

(** X13 on a Write row. *)
Lemma parse_log_of_row_witness :
  ("Write" = "Read" ∨ "Write" = "Write") ∧
  Filter.hex_literal "0x1c" = true ∧ Filter.hex_literal "0xdeadbeef" = true ∧
  Filter.hex_literal "0x4" = true ∧
  ParseLog.parse_log (Filter.format_row "Write" "0x1c" "0xdeadbeef" "0x4") =
  [mkEntry "Write" 28 3735928559 4].
Proof.
  split; [by right|]. do 3 (split; [reflexivity|]).
  apply (parse_log_of_row "Write" "0x1c" "0xdeadbeef" "0x4");
    [by right|reflexivity..].
Defined.

(** X14: the file that [format_mmio_access_to_file] writes is read back by
    [parse_log] in full: whatever the input lines, when the groups of the
    two patterns have their shapes ([0x[0-9a-f]+], and [\d+] for the length
    of a Write), the entries are, in line order, one per matched line, a
    Read of length 4 or a Write; the header and the rule give none.  The
    decimal length of a Write, written after [0x], is read in base 16. *)
Theorem mmio_file_parses_back
    (read_search : string → option (string * string))
    (write_search : string → option (string * string * string))
    (infile : list string) :
  (∀ s o v, read_search s = Some (o, v) →
            Filter.hex_literal o = true ∧ Filter.hex_literal v = true) →
  (∀ s o v g, write_search s = Some (o, v, g) →
              Filter.hex_literal o = true ∧ Filter.hex_literal v = true ∧
              Filter.run_of Filter.is_decimal g = true) →
  ParseLog.parse_log
    (Filter.format_mmio_access_to_file read_search write_search infile) =
  omap (λ line, Filter.mmio_entry (read_search (ParseLog.strip line))
                  (write_search (ParseLog.strip line))) infile.
Proof.
  intros Hread Hwrite. unfold Filter.format_mmio_access_to_file, Filter.format_to_file.
  apply (FilterFacts.parse_log_file
           (λ line, Filter.mmio_row (read_search (ParseLog.strip line))
                      (write_search (ParseLog.strip line)))).
  intros line. unfold Filter.mmio_row, Filter.mmio_entry.
  destruct (read_search (ParseLog.strip line)) as [[o v]|] eqn:Hr.
  - destruct (Hread _ _ _ Hr) as [Ho Hv].
    exists "Read", o, v, "0x4". split_and!; auto.
  - destruct (write_search (ParseLog.strip line)) as [[[o v] g]|] eqn:Hw; [|done].
    destruct (Hwrite _ _ _ _ Hw) as (Ho & Hv & Hg).
    exists "Write", o, v, ("0x" +:+ g). split_and!; auto.
    by apply StringFacts.hex_literal_of_decimal.
Qed.

(** X15: the same for [format_pci_config_to_file], whose patterns give the
    length as a third group of the shape [0x[0-9a-f]+]. *)
Theorem pci_file_parses_back
    (read_search write_search : string → option (string * string * string))
    (infile : list string) :
  (∀ s o l v, read_search s = Some (o, l, v) →
              Filter.hex_literal o = true ∧ Filter.hex_literal l = true ∧
              Filter.hex_literal v = true) →
  (∀ s o v l, write_search s = Some (o, v, l) →
              Filter.hex_literal o = true ∧ Filter.hex_literal v = true ∧
              Filter.hex_literal l = true) →
  ParseLog.parse_log
    (Filter.format_pci_config_to_file read_search write_search infile) =
  omap (λ line, Filter.pci_entry (read_search (ParseLog.strip line))
                  (write_search (ParseLog.strip line))) infile.
Proof.
  intros Hread Hwrite. unfold Filter.format_pci_config_to_file, Filter.format_to_file.
  apply (FilterFacts.parse_log_file
           (λ line, Filter.pci_row (read_search (ParseLog.strip line))
                      (write_search (ParseLog.strip line)))).
  intros line. unfold Filter.pci_row, Filter.pci_entry.
  destruct (read_search (ParseLog.strip line)) as [[[o l] v]|] eqn:Hr.
  - destruct (Hread _ _ _ _ Hr) as (Ho & Hl & Hv).
    exists "Read", o, v, l. split_and!; auto.
  - destruct (write_search (ParseLog.strip line)) as [[[o v] l]|] eqn:Hw; [|done].
    destruct (Hwrite _ _ _ _ Hw) as (Ho & Hv & Hl).
    exists "Write", o, v, l. split_and!; auto.
Qed.

(** X14 on the three sample lines: a Read row, no row, a Write row whose
    decimal length 16 is read back as 0x16. *)
Lemma mmio_file_parses_back_witness :
  (∀ s o v, Samples.mmio_read_search s = Some (o, v) →
            Filter.hex_literal o = true ∧ Filter.hex_literal v = true) ∧
  (∀ s o v g, Samples.mmio_write_search s = Some (o, v, g) →
              Filter.hex_literal o = true ∧ Filter.hex_literal v = true ∧
              Filter.run_of Filter.is_decimal g = true) ∧
  ParseLog.parse_log
    (Filter.format_mmio_access_to_file Samples.mmio_read_search
       Samples.mmio_write_search Samples.infile) =
  [mkEntry "Read" 8 31 4; mkEntry "Write" 12 2 22].
Proof.
  assert (∀ s o v, Samples.mmio_read_search s = Some (o, v) →
            Filter.hex_literal o = true ∧ Filter.hex_literal v = true) as H1.
  { intros s o v. unfold Samples.mmio_read_search.
    destruct (String.eqb s "r"); [|done]. by intros [= <- <-]. }
  assert (∀ s o v g, Samples.mmio_write_search s = Some (o, v, g) →
              Filter.hex_literal o = true ∧ Filter.hex_literal v = true ∧
              Filter.run_of Filter.is_decimal g = true) as H2.
  { intros s o v g. unfold Samples.mmio_write_search.
    destruct (String.eqb s "w"); [|done]. by intros [= <- <- <-]. }
  split; [exact H1|]. split; [exact H2|].
  rewrite (mmio_file_parses_back Samples.mmio_read_search Samples.mmio_write_search
             Samples.infile H1 H2).
  reflexivity.
Defined.

(** X15 on the three sample lines. *)
Lemma pci_file_parses_back_witness :
  (∀ s o l v, Samples.pci_read_search s = Some (o, l, v) →
              Filter.hex_literal o = true ∧ Filter.hex_literal l = true ∧
              Filter.hex_literal v = true) ∧
  (∀ s o v l, Samples.pci_write_search s = Some (o, v, l) →
              Filter.hex_literal o = true ∧ Filter.hex_literal v = true ∧
              Filter.hex_literal l = true) ∧
  ParseLog.parse_log
    (Filter.format_pci_config_to_file Samples.pci_read_search
       Samples.pci_write_search Samples.infile) =
  [mkEntry "Read" 4 263 2; mkEntry "Write" 16 4261412864 4].
Proof.
  assert (∀ s o l v, Samples.pci_read_search s = Some (o, l, v) →
              Filter.hex_literal o = true ∧ Filter.hex_literal l = true ∧
              Filter.hex_literal v = true) as H1.
  { intros s o l v. unfold Samples.pci_read_search.
    destruct (String.eqb s "r"); [|done]. by intros [= <- <- <-]. }
  assert (∀ s o v l, Samples.pci_write_search s = Some (o, v, l) →
              Filter.hex_literal o = true ∧ Filter.hex_literal v = true ∧
              Filter.hex_literal l = true) as H2.
  { intros s o v l. unfold Samples.pci_write_search.
    destruct (String.eqb s "w"); [|done]. by intros [= <- <- <-]. }
  split; [exact H1|]. split; [exact H2|].
  rewrite (pci_file_parses_back Samples.pci_read_search Samples.pci_write_search
             Samples.infile H1 H2).
  reflexivity.
Defined.

(** X16: the counts of the summaries: the number of unique offsets is the
    number of distinct offsets among the events, and the number of offsets
    with value changes is the number of distinct offsets that some Write
    targets. *)
Theorem summary_counts (entries : list Entry) :
  Report.unique_offsets (Scripty.current_state (Scripty.analyze_log entries)) =
    size (list_to_set (offset <$> entries) : gset Z) ∧
  Report.offsets_with_changes (Scripty.all_changes (Scripty.analyze_log entries)) =
    size (list_to_set (offset <$> filter (λ e, is_Write (op e)) entries) : gset Z).
Proof.
  pose proof (ScriptyFacts.analyze_log_Inv entries) as HI. split.
  - unfold Report.unique_offsets. rewrite <- size_dom. f_equal.
    apply set_eq. intros off.
    rewrite elem_of_dom, (AnalyzeLogInv.inv_seen _ _ HI), elem_of_list_to_set,
      list_elem_of_fmap.
    naive_solver.
  - unfold Report.offsets_with_changes. rewrite <- size_dom. f_equal.
    apply set_eq. intros off.
    rewrite elem_of_list_to_set, list_elem_of_fmap.
    pose proof (AnalyzeLogMore.changes_nonempty entries off) as Hne.
    rewrite elem_of_dom. split.
    + intros [l [Hl Hnil]%map_lookup_filter_Some]. simpl in Hnil.
      rewrite Hl in Hne. destruct (proj1 Hne Hnil) as (e & He & Hop & Hoff).
      exists e. split; [done|]. apply list_elem_of_filter. split; [|done].
      unfold is_Write. rewrite Hop. done.
    + intros (e & -> & [Hw He]%list_elem_of_filter).
      destruct (Scripty.all_changes (Scripty.analyze_log entries) !! offset e)
        as [l|] eqn:Hl.
      * exists l. apply map_lookup_filter_Some. split; [done|]. simpl.
        apply Hne. exists e. split_and!; [done| |done].
        apply String.eqb_eq. by apply Is_true_true.
      * exfalso. simpl in Hne. apply (proj2 Hne); [|done].
        exists e. split_and!; [done| |done].
        apply String.eqb_eq. by apply Is_true_true.
Qed.

(** X17: the two scripts agree on the indexed registers: [analyze_log]
    records a pair with index [i] and register select [r] exactly when
    position [i] holds what [analyze_registers] takes for a Write to the
    indexed register [r]; hence a register that [analyze_registers] reports
    as read before written has all its pairs after the reported line. *)
Theorem pairs_are_indexed_writes (entries : list Entry) :
  (∀ i r, (∃ p, p ∈ Scripty.pairs_0x0_0x4 (Scripty.analyze_log entries) ∧
                Scripty.p_index p = i ∧ Scripty.reg_select p = r) ↔
          write_at entries IndexedRegs r i) ∧
  (∀ rec p, rec ∈ rbw_records IndexedRegs entries →
            p ∈ Scripty.pairs_0x0_0x4 (Scripty.analyze_log entries) →
            Scripty.reg_select p = Scripty2.rbw_key rec →
            (Scripty2.rbw_line rec < Scripty.p_index p)%nat).
Proof.
  assert (∀ i r, (∃ p, p ∈ Scripty.pairs_0x0_0x4 (Scripty.analyze_log entries) ∧
                       Scripty.p_index p = i ∧ Scripty.reg_select p = r) ↔
                 write_at entries IndexedRegs r i) as Hpairs.
  { intros i r.
    rewrite (AnalyzeLogInv.inv_pairs _ _ (ScriptyFacts.analyze_log_Inv entries)).
    setoid_rewrite TraceFacts.elem_of_collect. unfold write_at, key_at, pair_at. split.
    - intros (p & (j & e & He & Hp) & Hi & Hr).
      destruct (writes_to 4 e) eqn:Hw; [|done].
      apply AnalyzeLogMore.writes_to_true in Hw as [Hop Hoff].
      destruct (last_write_before entries j 0) as [r'|] eqn:Hr'; [|done].
      injection Hp as <-. simpl in *. subst j r'.
      exists e. split_and!; try done. rewrite He.
      rewrite decide_False by lia. rewrite decide_True by done. by rewrite Hr'.
    - intros (e & He & Hop & Hkey). rewrite He in Hkey.
      destruct (decide (offset e = 0)); [done|].
      destruct (decide (offset e = 4)) as [Hoff|]; [|done].
      destruct (last_write_before entries i 0) as [r'|] eqn:Hr'; [|done].
      injection Hkey as <-.
      eexists. split.
      + exists i, e. split; [done|].
        rewrite (proj2 (AnalyzeLogMore.writes_to_true 4 e) (conj Hop Hoff)), Hr'.
        reflexivity.
      + done. }
  split; [done|]. intros rec p Hrec Hp Hr.
  assert (write_at entries IndexedRegs (Scripty2.rbw_key rec) (Scripty.p_index p))
    as Hw by (apply Hpairs; eauto).
  rewrite Scripty2Facts.rbw_records_table in Hrec.
  apply (TableReplay.inv_rbw _ _ (TableFacts.replay_TInv _)) in Hrec as [Hrd Hno].
  apply Scripty2Facts.writes_actions in Hw.
  destruct (decide (Scripty.p_index p < Scripty2.rbw_line rec)%nat) as [Hlt|Hge].
  - exfalso. apply (Hno _ Hlt). by eapply TableFacts.writes_touches.
  - destruct (decide (Scripty.p_index p = Scripty2.rbw_line rec)) as [Heq|]; [|lia].
    exfalso. rewrite Heq in Hw. by apply (TableFacts.reads_not_writes _ _ _ _ _ Hrd) in Hw.
Qed.
